(** * teyvat-uptime-monitor: a shallow embedding of src/src/index.ts

    The worker stores [UptimeData] records in a Cloudflare KV namespace.
    The KV namespace is modelled as a [gmap] from key to stored value, plus
    a log of the operations issued against it (so that properties about which
    keys an operation touches can be stated) and a fault predicate (a key
    whose operations fail, as a real KV call can reject).  Asynchronous
    code is modelled by a state and exception monad over that store. *)

From Stdlib Require Import ZArith String Ascii Sorting.Sorted Sorting.Mergesort Sorting.Permutation.
From stdpp Require Import base gmap strings list sorting.

Open Scope Z_scope.
Open Scope string_scope.

(** ** Data model (index.ts lines 5-17) *)

Inductive Status := Up | Down.

Definition Status_eqb (a b : Status) : bool :=
  match a, b with Up, Up | Down, Down => true | _, _ => false end.

Record SiteCheck := {
  site_name : string;
  url : string;
  timeout : Z
}.

(** [statusCode?] and [error?] are optional fields: [None] means the field
    is absent from the object (and from its JSON serialisation). *)
Record UptimeData := {
  status : Status;
  responseTime : Z;
  statusCode : option Z;
  error : option string;
  timestamp : Z
}.

(** A value held under a KV key.  [VRec d] is [JSON.stringify(d)] for a
    record [d]; [JSON.parse] gives [d] back.  [VBad raw] is a string that
    [JSON.parse] rejects (corrupted or foreign data); the empty string is
    one of them, and it is the only falsy string.  Text that parses to a
    value other than a record ([null], [{}], [5], ...) is not represented:
    the worker never writes it, and the properties below are about stores
    that hold none. *)
Inductive Val :=
  | VRec (d : UptimeData)
  | VBad (raw : string).

(** [JSON.parse]: [None] when it throws. *)
Definition parse (v : Val) : option UptimeData :=
  match v with VRec d => Some d | VBad _ => None end.

(** JavaScript truthiness of a string returned by [KV.get]. *)
Definition truthy (v : Val) : bool :=
  match v with VBad "" => false | _ => true end.

(** ** The KV store and the monad *)

Inductive Op :=
  | OpGet (k : string)
  | OpPut (k : string) (v : Val) (expirationTtl : option Z)
  | OpList (prefix : string).

Record St := {
  kv : gmap string Val;
  log : list Op;
  broken : string -> bool
}.

Definition set_kv (m : gmap string Val) (s : St) : St :=
  {| kv := m; log := log s; broken := broken s |}.

Definition log_op (o : Op) (s : St) : St :=
  {| kv := kv s; log := (log s ++ [o])%list; broken := broken s |}.

(** A store none of whose operations fails. *)
Definition reliable (s : St) : Prop := forall k, broken s k = false.

(** The operations issued between two states. *)
Definition ops_since (s s' : St) : list Op := drop (length (log s)) (log s').

(** An exception carries the thrown error's [message]. *)
Definition M (A : Type) : Type := St -> St * (A + string).

Global Instance M_ret : MRet M := fun A a s => (s, inl a).
Global Instance M_bind : MBind M := fun A B f m s =>
  match m s with
  | (s', inl a) => f a s'
  | (s', inr e) => (s', inr e)
  end.

Definition throw {A} (msg : string) : M A := fun s => (s, inr msg).

(** [try { m } catch (error) { h(error) }] *)
Definition try_catch {A} (m : M A) (h : string -> M A) : M A := fun s =>
  match m s with
  | (s', inr e) => h e s'
  | r => r
  end.

(** [env.UPTIME_KV.get(k)]: [None] is [null] (absent key). *)
Definition kv_get (k : string) : M (option Val) := fun s =>
  let s1 := log_op (OpGet k) s in
  if broken s k then (s1, inr "KV GET failed") else (s1, inl (kv s !! k)).

(** [env.UPTIME_KV.put(k, v, options)] *)
Definition kv_put (k : string) (v : Val) (ttl : option Z) : M unit := fun s =>
  let s1 := log_op (OpPut k v ttl) s in
  if broken s k then (s1, inr "KV PUT failed") else (set_kv (<[k:=v]> (kv s)) s1, inl ()).

(** Keys are enumerated by [list] in lexicographic (byte) order. *)
Module KeyOrder <: Orders.TotalLeBool.
Definition t := string.
Definition leb := String.leb.
Lemma leb_total : forall a b, leb a b = true \/ leb b a = true.
Proof. exact String.leb_total. Qed.
End KeyOrder.
Module KeySort := Sort KeyOrder.

(** Without a [limit] option, one [list] call returns at most 1000 keys
    (one page); the remaining keys need a further call with the returned
    [cursor]. *)
Definition KV_LIST_LIMIT : nat := 1000.

(** [env.UPTIME_KV.list({ prefix })].keys: the first page. *)
Definition kv_list (p : string) : M (list string) := fun s =>
  let s1 := log_op (OpList p) s in
  if broken s p then (s1, inr "KV LIST failed")
  else (s1, inl (take KV_LIST_LIMIT
                   (KeySort.sort (filter (fun k => String.prefix p k = true)
                                    (map fst (map_to_list (kv s))))))).

(** ** Keys (template literals of index.ts) *)

(** Decimal rendering of a number in a template literal; timestamps are
    below 2^53, so 32 digits are enough. *)
Fixpoint digits (fuel : nat) (n : Z) (acc : string) : string :=
  match fuel with
  | O => acc
  | S f =>
      let acc' := String (ascii_of_nat (48 + Z.to_nat (n mod 10))%nat) acc in
      if (n <? 10)%Z then acc' else digits f (n / 10) acc'
  end.

Definition z_to_string (z : Z) : string :=
  if (z <? 0)%Z then "-" ++ digits 32 (- z) "" else digits 32 z "".

Definition current_key (n : string) : string := "current_" ++ n.
Definition last_history_key (n : string) : string := "last_history_" ++ n.
Definition history_key (n : string) (ts : Z) : string :=
  "history_" ++ n ++ "_" ++ z_to_string ts.
Definition history_prefix (n : string) : string := "history_" ++ n ++ "_".

(** ** checkSite (index.ts lines 19-121) *)

(** The outcome of [await fetch(site.url, ...)]: a response with its [ok]
    flag and [status] code, or a rejection (transport error, or the abort
    fired by the [site.timeout] timer) with the error's message. *)
Inductive FetchOutcome :=
  | Resolved (ok : bool) (code : Z)
  | Rejected (message : string).

(** The environment of one [checkSite] call: its [Date.now()] readings and
    the outcome of [fetch]. *)
Record Probe := {
  now_start : Z;       (* const start = Date.now() *)
  now_timestamp : Z;   (* const timestamp = Date.now() *)
  now_response : Z;    (* Date.now() once the response arrived (line 36) *)
  now_catch : Z;       (* Date.now() in the catch block (line 84) *)
  fetch_outcome : FetchOutcome
}.

Definition fetch_site (p : Probe) : M (bool * Z) :=
  match fetch_outcome p with
  | Resolved ok code => mret (ok, code)
  | Rejected message => throw message
  end.

Definition TWO_HOURS : Z := 2 * 60 * 60 * 1000.
Definition HISTORY_TTL : Z := 7 * 24 * 60 * 60.

(** [shouldStore] of lines 53-69 (and 94-110), for the marker read from
    [last_history_<name>] and the status it is compared with. *)
Definition should_store (lastHistory : option Val) (cmp : Status) (ts : Z) : bool :=
  match lastHistory with
  | None => true
  | Some v =>
      if negb (truthy v) then true
      else match parse v with
           | None => true
           | Some lastData =>
               let timeDiff := ts - timestamp lastData in
               let statusChanged := negb (Status_eqb (status lastData) cmp) in
               let twoHoursPassed := (timeDiff >? TWO_HOURS)%Z in
               statusChanged || twoHoursPassed
           end
  end.

Definition checkSite (site : SiteCheck) (p : Probe) : M unit :=
  let start := now_start p in
  let ts := now_timestamp p in
  try_catch (A:=unit)
    (response ← fetch_site p;
     let '(ok, code) := (response : bool * Z) in
     let rt := now_response p - start in
     let st := if ok then Up else Down in
     let data := {| status := st; responseTime := rt; statusCode := Some code;
                    error := None; timestamp := ts |} in
     kv_put (current_key (site_name site)) (VRec data) None;;
     let lastHistoryKey := last_history_key (site_name site) in
     lastHistory ← kv_get lastHistoryKey;
     if should_store lastHistory st ts then
       kv_put (history_key (site_name site) ts) (VRec data) (Some HISTORY_TTL);;
       kv_put lastHistoryKey (VRec data) None
     else mret ())
    (fun message =>
     let data := {| status := Down; error := Some message; statusCode := None;
                    responseTime := now_catch p - start; timestamp := ts |} in
     kv_put (current_key (site_name site)) (VRec data) None;;
     let lastHistoryKey := last_history_key (site_name site) in
     lastHistory ← kv_get lastHistoryKey;
     if should_store lastHistory Down ts then
       kv_put (history_key (site_name site) ts) (VRec data) (Some HISTORY_TTL);;
       kv_put lastHistoryKey (VRec data) None
     else mret ()).

(** ** Responses *)

Inductive Body :=
  | BText (text : string)
  | BHistory (h : list UptimeData)
  | BStatuses (m : gmap string (option UptimeData)).

Record Response := { resp_status : Z; resp_body : Body }.

(** ** getStatus (index.ts lines 123-143) *)

Definition status_sites : list string := ["main"; "dashboard"; "api"; "cdn"].

(** [data ? JSON.parse(data) : null], a throwing parse caught as [null]. *)
Definition decode_current (data : option Val) : option UptimeData :=
  match data with
  | Some v => if truthy v then parse v else None
  | None => None
  end.

Fixpoint status_loop (ss : list string) (statuses : gmap string (option UptimeData))
  : M (gmap string (option UptimeData)) :=
  match ss with
  | [] => mret statuses
  | site :: rest =>
      data ← kv_get (current_key site);
      status_loop rest (<[site := decode_current data]> statuses)
  end.

Definition getStatus : M Response :=
  statuses ← status_loop status_sites ∅;
  mret {| resp_status := 200; resp_body := BStatuses statuses |}.

(** ** getHistory (index.ts lines 145-172) *)

(** The loop of lines 153-162. *)
Fixpoint collect (keys : list string) (history : list UptimeData) : M (list UptimeData) :=
  match keys with
  | [] => mret history
  | k :: rest =>
      data ← kv_get k;
      let history' :=
        match data with
        | Some v => if truthy v then
                      match parse v with Some d => (history ++ [d])%list | None => history end
                    else history
        | None => history
        end in
      collect rest history'
  end.

(** [Array.prototype.sort] is stable; with the comparator
    [(a, b) => b.timestamp - a.timestamp] its result is the stable sort by
    decreasing timestamp, computed here by insertion. *)
Fixpoint insert_by {A} (key : A -> Z) (d : A) (l : list A) : list A :=
  match l with
  | [] => [d]
  | e :: l' => if (key e <=? key d)%Z then d :: l else e :: insert_by key d l'
  end.

Fixpoint sort_by {A} (key : A -> Z) (l : list A) : list A :=
  match l with
  | [] => []
  | d :: l' => insert_by key d (sort_by key l')
  end.

Definition sort_desc (l : list UptimeData) : list UptimeData := sort_by timestamp l.

Definition getHistory (siteName : option string) : M Response :=
  match siteName with
  | None | Some "" =>
      mret {| resp_status := 400; resp_body := BText "Site parameter required" |}
  | Some n =>
      keys ← kv_list (history_prefix n);
      history ← collect keys [];
      mret {| resp_status := 200; resp_body := BHistory (take 100 (sort_desc history)) |}
  end.

(** ** Configuration and routing (index.ts lines 174-200) *)

Definition MONITORED_SITES : list SiteCheck := [
  {| site_name := "main"; url := "https://teyvatarchive.online/api/health"; timeout := 10000 |};
  {| site_name := "dashboard"; url := "https://dashboard.teyvatarchive.online"; timeout := 10000 |};
  {| site_name := "api"; url := "https://server.teyvatarchive.online"; timeout := 10000 |};
  {| site_name := "cdn"; url := "https://cdn.teyvatarchive.online/images/chapterIcons/UI_ChapterIcon_AkaFes.png"; timeout := 10000 |}
].

(** [fetch] handler: [pathname] of the request URL and
    [url.searchParams.get('site')]. *)
Definition route (pathname : string) (site_param : option string) : M Response :=
  if String.eqb pathname "/api/status" then getStatus
  else if String.eqb pathname "/api/history" then getHistory site_param
  else mret {| resp_status := 200; resp_body := BText "Teyvat Archive Uptime Monitor API" |}.

(** * Properties *)

(** ** Keys of one target are pairwise distinct *)

Lemma current_last_ne (n : string) : current_key n <> last_history_key n.
Proof. unfold current_key, last_history_key. simpl. discriminate. Qed.

Lemma history_current_ne (n : string) (ts : Z) : history_key n ts <> current_key n.
Proof. unfold current_key, history_key. simpl. discriminate. Qed.

Lemma history_last_ne (n : string) (ts : Z) : history_key n ts <> last_history_key n.
Proof. unfold last_history_key, history_key. simpl. discriminate. Qed.

(** ** One run of checkSite against a reliable store *)

(** The record a checkSite call builds from its probe (lines 39-44 for a
    response, lines 81-86 for a rejection). *)
Definition probe_record (p : Probe) : UptimeData :=
  match fetch_outcome p with
  | Resolved ok code =>
      {| status := if ok then Up else Down; responseTime := now_response p - now_start p;
         statusCode := Some code; error := None; timestamp := now_timestamp p |}
  | Rejected message =>
      {| status := Down; error := Some message; statusCode := None;
         responseTime := now_catch p - now_start p; timestamp := now_timestamp p |}
  end.

Definition sampled_ops (n : string) (d : UptimeData) (sto : bool) : list Op :=
  if sto then [OpPut (history_key n (timestamp d)) (VRec d) (Some HISTORY_TTL);
               OpPut (last_history_key n) (VRec d) None]
  else [].

Definition sampled_kv (n : string) (d : UptimeData) (sto : bool) (m : gmap string Val)
  : gmap string Val :=
  let m1 := <[current_key n := VRec d]> m in
  if sto then <[last_history_key n := VRec d]> (<[history_key n (timestamp d) := VRec d]> m1)
  else m1.

Lemma checkSite_run (site : SiteCheck) (p : Probe) (s : St) :
  reliable s ->
  let n := site_name site in
  let d := probe_record p in
  let sto := should_store (kv s !! last_history_key n) (status d) (timestamp d) in
  checkSite site p s =
    ({| kv := sampled_kv n d sto (kv s);
        log := (log s ++ [OpPut (current_key n) (VRec d) None; OpGet (last_history_key n)]
                ++ sampled_ops n d sto)%list;
        broken := broken s |}, inl ()).
Proof.
  intros Hr n d sto.
  subst n d sto.
  unfold checkSite, try_catch, fetch_site, probe_record.
  destruct (fetch_outcome p) as [ok code | msg];
    unfold mbind, M_bind, mret, M_ret, throw, kv_put, kv_get, log_op, set_kv;
    repeat progress (cbn [kv log broken status timestamp]; rewrite ?Hr);
    rewrite lookup_insert_ne by first [apply current_last_ne | apply not_eq_sym, current_last_ne];
    [destruct (should_store _ (if ok then Up else Down) _) | destruct (should_store _ Down _)];
    repeat progress (cbn [kv log broken status timestamp]; rewrite ?Hr);
    unfold sampled_kv, sampled_ops; cbn [timestamp];
    rewrite <- ?app_assoc; reflexivity.
Qed.

Lemma checkSite_ops (site : SiteCheck) (p : Probe) (s : St) :
  reliable s ->
  let n := site_name site in
  let d := probe_record p in
  let sto := should_store (kv s !! last_history_key n) (status d) (timestamp d) in
  ops_since s (checkSite site p s).1 =
    ([OpPut (current_key n) (VRec d) None; OpGet (last_history_key n)] ++ sampled_ops n d sto)%list.
Proof.
  intros Hr n d sto. pose proof (checkSite_run site p s Hr) as E. cbv zeta in E.
  rewrite E. unfold ops_since. cbn [fst log]. apply drop_app_length.
Qed.

Lemma probe_record_timestamp (p : Probe) : timestamp (probe_record p) = now_timestamp p.
Proof. unfold probe_record. destruct (fetch_outcome p); reflexivity. Qed.

Lemma probe_record_status (p : Probe) :
  status (probe_record p) = match fetch_outcome p with Resolved true _ => Up | _ => Down end.
Proof. unfold probe_record. destruct (fetch_outcome p) as [[] ?|]; reflexivity. Qed.

(** The sampling rule in the words of the spec (section 4.2): sample when
    the marker is absent, fails to parse, has another status, or is more
    than two hours older than the new record. *)
Definition sample_rule (marker : option Val) (d : UptimeData) : Prop :=
  marker = None \/
  (exists raw, marker = Some (VBad raw)) \/
  (exists m, marker = Some (VRec m) /\
             (status m <> status d \/ timestamp d - timestamp m > TWO_HOURS)).

Lemma should_store_spec (marker : option Val) (d : UptimeData) :
  should_store marker (status d) (timestamp d) = true <-> sample_rule marker d.
Proof.
  unfold should_store, sample_rule.
  destruct marker as [[m | raw] |].
  - cbn [truthy negb parse]. rewrite orb_true_iff, negb_true_iff, Z.gtb_lt.
    split.
    + intros H. right; right. exists m. split; [reflexivity |].
      destruct H as [H | H]; [left | right].
      * intros E. rewrite E in H. destruct (status d); discriminate.
      * lia.
    + intros [H | [[raw H] | (m' & H & Hc)]]; try discriminate.
      injection H as <-. destruct Hc as [Hc | Hc].
      * left. destruct (status m), (status d); cbn; congruence.
      * right. lia.
  - split; [intros _; right; left; eauto |].
    intros _. destruct raw; reflexivity.
  - split; [intros _; left; reflexivity | reflexivity].
Qed.

Ltac key_facts n ts :=
  pose proof (current_last_ne n); pose proof (history_current_ne n ts);
  pose proof (history_last_ne n ts).

Lemma sampled_kv_current (n : string) (d : UptimeData) (sto : bool) (m : gmap string Val) :
  sampled_kv n d sto m !! current_key n = Some (VRec d).
Proof.
  unfold sampled_kv. key_facts n (timestamp d).
  destruct sto; rewrite ?lookup_insert_ne by congruence; apply lookup_insert_eq.
Qed.

Lemma sampled_ops_history (n : string) (d : UptimeData) (sto : bool) :
  (exists v ttl, OpPut (history_key n (timestamp d)) v ttl ∈
     ([OpPut (current_key n) (VRec d) None; OpGet (last_history_key n)] ++ sampled_ops n d sto)%list)
  <-> sto = true.
Proof.
  key_facts n (timestamp d). unfold sampled_ops.
  destruct sto; split; intros Hin; try reflexivity; try discriminate.
  - eexists _, _. apply list_elem_of_In. simpl. eauto.
  - destruct Hin as (v & ttl & Hin). apply list_elem_of_In in Hin. simpl in Hin.
    intuition congruence.
Qed.

Lemma sampled_ops_marker (n : string) (d : UptimeData) (sto : bool) :
  (exists v ttl, OpPut (last_history_key n) v ttl ∈
     ([OpPut (current_key n) (VRec d) None; OpGet (last_history_key n)] ++ sampled_ops n d sto)%list)
  <-> sto = true.
Proof.
  key_facts n (timestamp d). unfold sampled_ops.
  destruct sto; split; intros Hin; try reflexivity; try discriminate.
  - eexists _, _. apply list_elem_of_In. simpl. eauto.
  - destruct Hin as (v & ttl & Hin). apply list_elem_of_In in Hin. simpl in Hin.
    intuition congruence.
Qed.

(** Runs [checkSite] symbolically on a reliable store: introduces the
    resulting state and the equations describing it. *)
Ltac run_checkSite site p s Hr :=
  let Eo := fresh "Eo" in let Er := fresh "Er" in let E := fresh "E" in
  let s' := fresh "s'" in let r := fresh "r" in
  pose proof (checkSite_ops site p s Hr) as Eo; cbv zeta in Eo;
  pose proof (checkSite_run site p s Hr) as Er; cbv zeta in Er;
  destruct (checkSite site p s) as [s' r] eqn:E;
  cbn [fst] in Eo; injection Er as -> ->.

(** ** C1: the sampling decision *)

(** C1.  Against a reliable store, for every probe outcome (a response or
    a rejected fetch) and every prior marker, checkSite completes normally,
    writes the new record [d] to the current slot, and puts a history entry
    under [history_<name>_<timestamp>] and a new marker exactly when the
    marker is absent, does not parse, has a status other than [d]'s, or is
    more than two hours older than [d]; the failure path compares with
    [Down], which is [d]'s status there. *)
Theorem checkSite_sampling_rule (site : SiteCheck) (p : Probe) (s : St) :
  reliable s ->
  let n := site_name site in
  let marker := kv s !! last_history_key n in
  let '(s', r) := checkSite site p s in
  r = inl () /\
  exists d : UptimeData,
    kv s' !! current_key n = Some (VRec d) /\
    timestamp d = now_timestamp p /\
    status d = match fetch_outcome p with Resolved true _ => Up | _ => Down end /\
    ((exists v ttl, OpPut (history_key n (now_timestamp p)) v ttl ∈ ops_since s s')
       <-> sample_rule marker d) /\
    ((exists v ttl, OpPut (last_history_key n) v ttl ∈ ops_since s s')
       <-> sample_rule marker d).
Proof.
  intros Hr n marker.
  run_checkSite site p s Hr.
  split; [reflexivity |]. exists (probe_record p).
  cbn [kv]. rewrite sampled_kv_current.
  split; [reflexivity |].
  split; [apply probe_record_timestamp |].
  split; [apply probe_record_status |].
  rewrite Eo, <- should_store_spec, <- probe_record_timestamp.
  split; [apply sampled_ops_history | apply sampled_ops_marker].
Qed.

Lemma run_put_record (n : string) (d : UptimeData) (sto : bool) (k : string) (d' : UptimeData)
    (ttl : option Z) :
  OpPut k (VRec d') ttl ∈
    ([OpPut (current_key n) (VRec d) None; OpGet (last_history_key n)] ++ sampled_ops n d sto)%list ->
  d' = d.
Proof.
  intros Hin. apply list_elem_of_In in Hin. unfold sampled_ops in Hin.
  destruct sto; simpl in Hin; intuition congruence.
Qed.

(** ** C3: classification of the outcome *)

(** C3.  Against a reliable store, checkSite completes normally for every
    fetch outcome (a rejected fetch does not propagate), writes a record to
    the current slot, and every record it writes has status [Up] exactly
    when fetch resolved with a response whose [ok] flag is true. *)
Theorem checkSite_status_up_iff_ok (site : SiteCheck) (p : Probe) (s : St) :
  reliable s ->
  let '(s', r) := checkSite site p s in
  r = inl () /\
  (exists d, OpPut (current_key (site_name site)) (VRec d) None ∈ ops_since s s') /\
  forall k d ttl, OpPut k (VRec d) ttl ∈ ops_since s s' ->
    (status d = Up <-> exists code, fetch_outcome p = Resolved true code).
Proof.
  intros Hr. run_checkSite site p s Hr.
  split; [reflexivity |]. rewrite Eo. split.
  - exists (probe_record p). apply list_elem_of_In. left. reflexivity.
  - intros k d ttl Hin. apply run_put_record in Hin as ->.
    rewrite probe_record_status.
    destruct (fetch_outcome p) as [[] code | msg]; split; intros H;
      try discriminate; eauto; destruct H as [c Hc]; discriminate.
Qed.

(** ** C4: a corrupt marker is treated as an absent one *)

(** C4.  Against a reliable store whose marker for the target does not
    parse, checkSite does exactly what it does when the marker is absent
    (same final store, same operations), and it writes a history entry
    under the new record's timestamp and the marker, both holding the new
    record, whatever the fetch outcome. *)
Theorem checkSite_corrupt_marker_as_absent (site : SiteCheck) (p : Probe) (s : St)
    (raw : string) :
  reliable s ->
  kv s !! last_history_key (site_name site) = Some (VBad raw) ->
  let n := site_name site in
  checkSite site p s = checkSite site p (set_kv (delete (last_history_key n) (kv s)) s) /\
  let '(s', _) := checkSite site p s in
  exists d,
    kv s' !! current_key n = Some (VRec d) /\
    OpPut (history_key n (now_timestamp p)) (VRec d) (Some HISTORY_TTL) ∈ ops_since s s' /\
    OpPut (last_history_key n) (VRec d) None ∈ ops_since s s' /\
    kv s' !! history_key n (now_timestamp p) = Some (VRec d) /\
    kv s' !! last_history_key n = Some (VRec d).
Proof.
  intros Hr Hm. cbv zeta.
  assert (Hr' : reliable (set_kv (delete (last_history_key (site_name site)) (kv s)) s)) by exact Hr.
  assert (Hsto : should_store (kv s !! last_history_key (site_name site)) (status (probe_record p))
                   (timestamp (probe_record p)) = true)
    by (rewrite Hm; destruct raw; reflexivity).
  split.
  - pose proof (checkSite_run site p s Hr) as E1. cbv zeta in E1.
    pose proof (checkSite_run site p _ Hr') as E2. cbv zeta in E2.
    rewrite E1, E2. cbn [kv log broken set_kv]. rewrite lookup_delete_eq.
    rewrite Hsto. cbn [should_store].
    do 2 f_equal. unfold sampled_kv.
    apply map_eq. intros k. rewrite !lookup_insert.
    repeat case_decide; try reflexivity.
    rewrite lookup_delete_ne; [reflexivity | congruence].
  - run_checkSite site p s Hr. rewrite Eo, Hsto.
    key_facts (site_name site) (now_timestamp p).
    exists (probe_record p). cbn [kv]. rewrite sampled_kv_current.
    unfold sampled_kv, sampled_ops. rewrite probe_record_timestamp.
    split; [reflexivity |].
    split; [apply list_elem_of_In; simpl; tauto |].
    split; [apply list_elem_of_In; simpl; tauto |].
    split.
    + rewrite lookup_insert_ne by congruence. apply lookup_insert_eq.
    + apply lookup_insert_eq.
Qed.

(** ** C5: a stable status within two hours writes no history *)

(** C5.  Against a reliable store whose marker parses, has the status of
    the new record and is at most two hours older than it, checkSite only
    overwrites the current slot (and reads the marker): no history entry,
    no marker write. *)
Theorem checkSite_stable_no_history (site : SiteCheck) (p : Probe) (s : St) (m : UptimeData) :
  reliable s ->
  kv s !! last_history_key (site_name site) = Some (VRec m) ->
  status m = match fetch_outcome p with Resolved true _ => Up | _ => Down end ->
  now_timestamp p - timestamp m <= TWO_HOURS ->
  let n := site_name site in
  let '(s', r) := checkSite site p s in
  r = inl () /\
  exists d,
    status d = status m /\ timestamp d = now_timestamp p /\
    ops_since s s' = [OpPut (current_key n) (VRec d) None; OpGet (last_history_key n)] /\
    kv s' = <[current_key n := VRec d]> (kv s) /\
    kv s' !! last_history_key n = Some (VRec m).
Proof.
  intros Hr Hm Hst Hts. cbv zeta.
  assert (Hsto : should_store (kv s !! last_history_key (site_name site)) (status (probe_record p))
                   (timestamp (probe_record p)) = false).
  { destruct (should_store _ _ _) eqn:Es; [| reflexivity].
    apply should_store_spec in Es. unfold sample_rule in Es.
    rewrite probe_record_status, probe_record_timestamp in Es.
    rewrite Hm in Es. destruct Es as [E | [[raw E] | (m' & E & Hc)]]; try discriminate.
    injection E as <-. destruct Hc; [congruence | lia]. }
  run_checkSite site p s Hr. rewrite Eo, Hsto.
  split; [reflexivity |]. exists (probe_record p).
  rewrite probe_record_status, probe_record_timestamp, Hst.
  do 2 (split; [reflexivity |]).
  unfold sampled_ops, sampled_kv. cbn [kv]. rewrite app_nil_r.
  do 2 (split; [reflexivity |]).
  rewrite lookup_insert_ne by apply current_last_ne. exact Hm.
Qed.

(** ** C6: [statusCode] and [error] are exclusive *)

(** Every record checkSite puts, whatever the store's faults, is one of
    the two records it builds: one with a [statusCode] and no [error]
    (lines 39-44), or one with an [error] and no [statusCode] (lines
    81-86). *)
Lemma checkSite_puts_exclusive (site : SiteCheck) (p : Probe) (s : St) (k : string)
    (d : UptimeData) (ttl : option Z) :
  OpPut k (VRec d) ttl ∈ ops_since s (checkSite site p s).1 ->
  (exists code, statusCode d = Some code /\ error d = None) \/
  (exists message, error d = Some message /\ statusCode d = None).
Proof.
  unfold checkSite, try_catch, fetch_site, ops_since.
  destruct (fetch_outcome p) as [ok code | msg];
    unfold mbind, M_bind, mret, M_ret, throw, kv_put, kv_get, log_op, set_kv;
    repeat (cbn [kv log broken fst];
            match goal with
            | |- context [broken s ?key] => destruct (broken s key)
            | |- context [should_store ?a ?b ?c] => destruct (should_store a b c)
            end);
    cbn [kv log broken fst]; rewrite <- ?app_assoc, ?drop_app_length;
    intros Hin; apply list_elem_of_In in Hin; simpl in Hin;
    intuition (simplify_eq; eauto).
Qed.

(** C6.  Every record checkSite writes carries at most one of
    [statusCode] and [error], whatever the store does; against a reliable
    store, [statusCode] is present exactly when fetch resolved with a
    response (ok or not) and [error] exactly when fetch was rejected. *)
Theorem checkSite_code_xor_error (site : SiteCheck) (p : Probe) (s : St) :
  let '(s', _) := checkSite site p s in
  (forall k d ttl, OpPut k (VRec d) ttl ∈ ops_since s s' ->
     statusCode d = None \/ error d = None) /\
  (reliable s -> forall k d ttl, OpPut k (VRec d) ttl ∈ ops_since s s' ->
     (is_Some (statusCode d) <-> exists ok code, fetch_outcome p = Resolved ok code) /\
     (is_Some (error d) <-> exists message, fetch_outcome p = Rejected message)).
Proof.
  pose proof (checkSite_puts_exclusive site p s) as Hx.
  destruct (checkSite site p s) as [s' r] eqn:E. cbn [fst] in Hx.
  split.
  - intros k d ttl Hin. destruct (Hx k d ttl Hin) as [(c & _ & He) | (msg & _ & Hc)]; auto.
  - intros Hr k d ttl Hin.
    pose proof (checkSite_ops site p s Hr) as Eo. cbv zeta in Eo.
    rewrite E in Eo. cbn [fst] in Eo. rewrite Eo in Hin.
    apply run_put_record in Hin as ->. unfold probe_record.
    destruct (fetch_outcome p) as [ok code | msg]; cbn [statusCode error];
      split; split; intros H; try (destruct H; discriminate); eauto;
      destruct H as (? & ? & ?); discriminate.
Qed.

(** ** getStatus *)

Lemma status_loop_run (ss : list string) (acc : gmap string (option UptimeData)) (s : St) :
  reliable s ->
  status_loop ss acc s =
    ({| kv := kv s; log := (log s ++ map (fun site => OpGet (current_key site)) ss)%list;
        broken := broken s |},
     inl (foldl (fun m site => <[site := decode_current (kv s !! current_key site)]> m) acc ss)).
Proof.
  revert acc s. induction ss as [| site rest IH]; intros acc s Hr.
  - cbn. rewrite app_nil_r. destruct s; reflexivity.
  - cbn [status_loop]. unfold mbind, M_bind, kv_get, log_op. rewrite Hr.
    rewrite IH by exact Hr. cbn [kv log broken foldl map]. rewrite <- app_assoc. reflexivity.
Qed.

(** The mapping getStatus builds from a store. *)
Definition status_map (s : St) : gmap string (option UptimeData) :=
  foldl (fun m site => <[site := decode_current (kv s !! current_key site)]> m) ∅ status_sites.

Lemma getStatus_run (s : St) :
  reliable s ->
  getStatus s =
    ({| kv := kv s; log := (log s ++ map (fun site => OpGet (current_key site)) status_sites)%list;
        broken := broken s |},
     inl {| resp_status := 200; resp_body := BStatuses (status_map s) |}).
Proof.
  intros Hr. unfold getStatus, mbind, M_bind. rewrite status_loop_run by exact Hr.
  reflexivity.
Qed.

Lemma status_map_lookup (s : St) (site : string) :
  status_map s !! site =
    if decide (site ∈ status_sites) then Some (decode_current (kv s !! current_key site))
    else None.
Proof.
  unfold status_map, status_sites. cbn [foldl].
  rewrite !lookup_insert, lookup_empty.
  repeat case_decide; subst; try reflexivity; set_unfold; naive_solver.
Qed.

Lemma decode_current_spec (data : option Val) :
  decode_current data = match data with Some (VRec d) => Some d | _ => None end.
Proof. destruct data as [[d | []] |]; reflexivity. Qed.

(** C7.  Against a reliable store, getStatus answers with a mapping whose
    keys are exactly the configured target names; a target whose current
    slot is absent or does not parse maps to [null] ([None]) and one whose
    slot holds a record maps to it.  The value for a target depends on that
    target's current slot only, so absent or corrupt slots of other targets
    do not affect it. *)
Theorem getStatus_best_effort :
  (forall s : St, reliable s ->
     exists m,
       snd (getStatus s) = inl {| resp_status := 200; resp_body := BStatuses m |} /\
       (forall site, site ∈ map site_name MONITORED_SITES <-> is_Some (m !! site)) /\
       (forall site, site ∈ map site_name MONITORED_SITES ->
          (kv s !! current_key site = None \/
           (exists raw, kv s !! current_key site = Some (VBad raw)) ->
           m !! site = Some None) /\
          (forall d, kv s !! current_key site = Some (VRec d) -> m !! site = Some (Some d)))) /\
  (forall (s1 s2 : St) (site : string) (m1 m2 : gmap string (option UptimeData)),
     reliable s1 -> reliable s2 ->
     snd (getStatus s1) = inl {| resp_status := 200; resp_body := BStatuses m1 |} ->
     snd (getStatus s2) = inl {| resp_status := 200; resp_body := BStatuses m2 |} ->
     kv s1 !! current_key site = kv s2 !! current_key site ->
     m1 !! site = m2 !! site).
Proof.
  assert (Hnames : map site_name MONITORED_SITES = status_sites) by reflexivity.
  split.
  - intros s Hr. exists (status_map s). rewrite getStatus_run by exact Hr.
    split; [reflexivity |]. rewrite Hnames. split.
    + intros site. rewrite status_map_lookup.
      case_decide; split; intros H'; try done; destruct H'; discriminate.
    + intros site Hin. rewrite status_map_lookup, decide_True by exact Hin.
      rewrite decode_current_spec. split.
      * intros [-> | [raw ->]]; reflexivity.
      * intros d ->. reflexivity.
  - intros s1 s2 site m1 m2 Hr1 Hr2 E1 E2 Hslot.
    rewrite getStatus_run in E1 by exact Hr1. rewrite getStatus_run in E2 by exact Hr2.
    cbn [snd] in E1, E2. injection E1 as <-. injection E2 as <-.
    rewrite !status_map_lookup, Hslot. reflexivity.
Qed.

(** ** getHistory without a site *)

(** C8.  getHistory without a [site] answers 400 with the body
    [Site parameter required] and leaves the store, its operation log
    included, untouched: no get, put or list is issued.  The router passes
    a missing query parameter as [null]. *)
Theorem getHistory_missing_site (s : St) :
  getHistory None s =
    (s, inl {| resp_status := 400; resp_body := BText "Site parameter required" |}) /\
  route "/api/history" None s =
    (s, inl {| resp_status := 400; resp_body := BText "Site parameter required" |}).
Proof. split; reflexivity. Qed.

(** C10.  An empty [site] parameter ([/api/history?site=]) is falsy and is
    handled exactly like a missing one: 400, [Site parameter required], no
    store operation. *)
Theorem getHistory_empty_site (s : St) :
  getHistory (Some "") s = getHistory None s /\
  route "/api/history" (Some "") s =
    (s, inl {| resp_status := 400; resp_body := BText "Site parameter required" |}).
Proof. split; reflexivity. Qed.

(** ** Keys owned by a target *)

(** The keys of target [n]: its current slot, its marker, and every key
    under its history prefix [history_<n>_]. *)
Definition owns (n k : string) : Prop :=
  k = current_key n \/ k = last_history_key n \/
  exists suffix, k = history_prefix n ++ suffix.

Definition op_key (o : Op) : string :=
  match o with OpGet k => k | OpPut k _ _ => k | OpList p => p end.

Lemma string_app_assoc (a b c : string) : (a ++ b) ++ c = a ++ (b ++ c).
Proof.
  induction a as [| x a IH]; [reflexivity |].
  change (String x ((a ++ b) ++ c) = String x (a ++ (b ++ c))). rewrite IH. reflexivity.
Qed.

Lemma string_app_empty_r (a : string) : a ++ "" = a.
Proof.
  induction a as [| x a IH]; [reflexivity |].
  change (String x (a ++ "") = String x a). rewrite IH. reflexivity.
Qed.

Lemma prefix_app (p k : string) : String.prefix p k = true -> exists suffix, k = p ++ suffix.
Proof.
  revert k. induction p as [| a p IH]; intros k H; [exists k; reflexivity |].
  destruct k as [| b k]; [discriminate |]. simpl in H.
  destruct (ascii_dec a b) as [-> |]; [| discriminate].
  destruct (IH k H) as [suffix ->]. exists suffix. reflexivity.
Qed.

Lemma history_key_owned (n : string) (ts : Z) : owns n (history_key n ts).
Proof.
  right; right. exists (z_to_string ts). unfold history_key, history_prefix.
  rewrite !string_app_assoc. reflexivity.
Qed.

(** Whatever the store does, checkSite only touches the current slot, the
    marker and the history entry of its own target. *)
Lemma checkSite_op_keys (site : SiteCheck) (p : Probe) (s : St) (o : Op) :
  o ∈ ops_since s (checkSite site p s).1 ->
  op_key o = current_key (site_name site) \/ op_key o = last_history_key (site_name site) \/
  op_key o = history_key (site_name site) (now_timestamp p).
Proof.
  unfold checkSite, try_catch, fetch_site, ops_since.
  destruct (fetch_outcome p) as [ok code | msg];
    unfold mbind, M_bind, mret, M_ret, throw, kv_put, kv_get, log_op, set_kv;
    repeat (cbn [kv log broken fst];
            match goal with
            | |- context [broken s ?key] => destruct (broken s key)
            | |- context [should_store ?a ?b ?c] => destruct (should_store a b c)
            end);
    cbn [kv log broken fst]; rewrite <- ?app_assoc, ?drop_app_length;
    intros Hin; apply list_elem_of_In in Hin; simpl in Hin;
    intuition (subst; simpl; auto).
Qed.

Lemma collect_log (keys : list string) (h : list UptimeData) (s : St) :
  exists ks, log (collect keys h s).1 = (log s ++ map OpGet ks)%list /\
             Forall (fun k => k ∈ keys) ks.
Proof.
  revert h s. induction keys as [| k rest IH]; intros h s.
  - exists []. split; [symmetry; apply app_nil_r | constructor].
  - cbn [collect]. unfold mbind, M_bind, kv_get, log_op.
    destruct (broken s k).
    + exists [k]. split; [reflexivity |]. constructor; [left | constructor].
    + match goal with |- context [collect rest ?h' ?s'] => destruct (IH h' s') as (ks & E & F) end.
      exists (k :: ks). rewrite E. cbn [log]. split.
      * rewrite <- app_assoc. reflexivity.
      * constructor; [left |]. eapply Forall_impl; [exact F |]. intros x Hx. right. exact Hx.
Qed.

Lemma kv_list_prefix (pfx : string) (s : St) (ks : list string) (k : string) :
  (kv_list pfx s).2 = inl ks -> k ∈ ks -> String.prefix pfx k = true.
Proof.
  unfold kv_list. destruct (broken s pfx); cbn [snd]; [discriminate |].
  intros E Hk. injection E as <-.
  apply elem_of_take in Hk as (i & Hi & _). apply list_elem_of_lookup_2 in Hi.
  apply list_elem_of_In in Hi. eapply Permutation_in in Hi;
    [| symmetry; apply KeySort.Permuted_sort].
  apply list_elem_of_In, list_elem_of_filter in Hi as [Hp _]. exact Hp.
Qed.

Lemma kv_list_state (pfx : string) (s : St) : (kv_list pfx s).1 = log_op (OpList pfx) s.
Proof. unfold kv_list. destruct (broken s pfx); reflexivity. Qed.

(** Whatever the store does, getHistory for a non-empty name lists its
    history prefix and reads only keys under it. *)
Lemma getHistory_op_keys (n : string) (s : St) (o : Op) :
  n <> "" ->
  o ∈ ops_since s (getHistory (Some n) s).1 ->
  o = OpList (history_prefix n) \/
  exists k, o = OpGet k /\ String.prefix (history_prefix n) k = true.
Proof.
  intros Hn. destruct n as [| c n']; [congruence |].
  unfold getHistory. cbv beta iota. unfold mbind at 1, M_bind at 1.
  pose proof (kv_list_state (history_prefix (String c n')) s) as Es.
  pose proof (kv_list_prefix (history_prefix (String c n')) s) as Hp.
  destruct (kv_list (history_prefix (String c n')) s) as [s1 [ks | e]].
  - cbn [fst snd] in Es, Hp. specialize (Hp ks).
    unfold mbind, M_bind.
    pose proof (collect_log ks [] s1) as (gs & Eg & Fg).
    destruct (collect ks [] s1) as [s2 r]. cbn [fst] in Eg.
    assert (Hlog : log s2 = (log s ++ OpList (history_prefix (String c n')) :: map OpGet gs)%list).
    { rewrite Eg, Es. cbn [log log_op]. rewrite <- app_assoc. reflexivity. }
    destruct r; unfold mret, M_ret; cbn [fst]; unfold ops_since; rewrite Hlog, drop_app_length;
      intros Hin; apply elem_of_cons in Hin as [-> | Hin]; auto;
      right; apply list_elem_of_fmap in Hin as (k & -> & Hk); exists k; split; auto;
      apply (Hp k eq_refl); rewrite Forall_forall in Fg; apply Fg; exact Hk.
  - cbn [fst] in Es |- *. subst s1. unfold ops_since. cbn [log log_op].
    rewrite drop_app_length. intros Hin. apply list_elem_of_singleton in Hin. auto.
Qed.

(** ** C9: the configured targets have disjoint keys *)

(** C9.  For the configured targets (main, dashboard, api, cdn), no key
    belongs to two of them; every operation checkSite issues for a target,
    and every operation getHistory issues for a configured name (its list
    prefix and the keys it reads), is on a key of that target; and a key
    under the list prefix [history_<name>_] belongs to no other configured
    target.  This holds whatever the store's faults. *)
Theorem target_keys_disjoint :
  let names := map site_name MONITORED_SITES in
  (forall n1 n2 k, n1 ∈ names -> n2 ∈ names -> owns n1 k -> owns n2 k -> n1 = n2) /\
  (forall site p s o, o ∈ ops_since s (checkSite site p s).1 ->
     owns (site_name site) (op_key o)) /\
  (forall n s o, n ∈ names -> o ∈ ops_since s (getHistory (Some n) s).1 ->
     owns n (op_key o)) /\
  (forall n n' k, n ∈ names -> n' ∈ names ->
     String.prefix (history_prefix n) k = true -> owns n' k -> n' = n).
Proof.
  intros names.
  assert (Hdisj : forall n1 n2 k, n1 ∈ names -> n2 ∈ names -> owns n1 k -> owns n2 k -> n1 = n2).
  { intros n1 n2 k H1 H2 O1 O2.
    apply list_elem_of_In in H1, H2. simpl in H1, H2.
    destruct H1 as [<- | [<- | [<- | [<- | []]]]];
      destruct H2 as [<- | [<- | [<- | [<- | []]]]]; try reflexivity;
      unfold owns, current_key, last_history_key, history_prefix in O1, O2;
      destruct O1 as [-> | [-> | [s1 ->]]]; destruct O2 as [E | [E | [s2 E]]];
      discriminate E. }
  assert (Hpre : forall n k, String.prefix (history_prefix n) k = true -> owns n k).
  { intros n k Hk. apply prefix_app in Hk as [suffix ->]. right; right. eauto. }
  split; [exact Hdisj |]. split; [| split].
  - intros site p s o Hin. apply checkSite_op_keys in Hin as [E | [E | E]]; rewrite E.
    + left. reflexivity.
    + right; left. reflexivity.
    + apply history_key_owned.
  - intros n s o Hn Hin. apply getHistory_op_keys in Hin as [-> | (k & -> & Hk)].
    + right; right. exists "". cbn [op_key]. symmetry. apply string_app_empty_r.
    + apply Hpre. exact Hk.
    + intros ->. apply list_elem_of_In in Hn. simpl in Hn. intuition discriminate.
  - intros n n' k Hn Hn' Hk Ho. apply (Hdisj n' n k Hn' Hn Ho). apply Hpre. exact Hk.
Qed.

(** ** The stable sort by decreasing timestamp *)

Section SortBy.
Context {A : Type} (key : A -> Z).
Local Open Scope list_scope.

(** "[a] comes no later than [b]": non-increasing keys. *)
Definition desc (a b : A) : Prop := (key b <= key a)%Z.

Lemma insert_by_perm (d : A) (l : list A) : insert_by key d l ≡ₚ d :: l.
Proof.
  induction l as [| e l IH]; cbn [insert_by]; [reflexivity |].
  destruct (key e <=? key d)%Z; [reflexivity |].
  rewrite IH. apply perm_swap.
Qed.

Lemma sort_by_perm (l : list A) : sort_by key l ≡ₚ l.
Proof.
  induction l as [| d l IH]; cbn [sort_by]; [reflexivity |].
  rewrite insert_by_perm, IH. reflexivity.
Qed.

Lemma insert_by_sorted (d : A) (l : list A) :
  StronglySorted desc l -> StronglySorted desc (insert_by key d l).
Proof.
  induction l as [| e l IH]; intros Hs; cbn [insert_by].
  - repeat constructor.
  - apply StronglySorted_cons in Hs as [He Hs].
    destruct (key e <=? key d)%Z eqn:Ek.
    + apply Z.leb_le in Ek. apply StronglySorted_cons. split.
      * constructor; [exact Ek |].
        eapply Forall_impl; [exact He |]. unfold desc. intros y Hy. cbv beta in *. lia.
      * apply StronglySorted_cons. auto.
    + apply Z.leb_gt in Ek. apply StronglySorted_cons. split; [| auto].
      rewrite Forall_forall. intros y Hy.
      apply list_elem_of_In in Hy. eapply Permutation_in in Hy; [| apply insert_by_perm].
      destruct Hy as [<- | Hy].
      * unfold desc. lia.
      * rewrite Forall_forall in He. apply He, list_elem_of_In, Hy.
Qed.

Lemma sort_by_sorted (l : list A) : StronglySorted desc (sort_by key l).
Proof.
  induction l as [| d l IH]; cbn [sort_by]; [constructor |].
  apply insert_by_sorted, IH.
Qed.

Lemma insert_by_split (d : A) (l : list A) :
  exists l1 l2, l = l1 ++ l2 /\ insert_by key d l = l1 ++ d :: l2.
Proof.
  induction l as [| e l IH]; cbn [insert_by].
  - exists [], []. split; reflexivity.
  - destruct (key e <=? key d)%Z.
    + exists [], (e :: l). split; reflexivity.
    + destruct IH as (l1 & l2 & -> & ->). exists (e :: l1), l2. split; reflexivity.
Qed.

Lemma insert_by_head (x : A) (l : list A) :
  Forall (fun y => key y <= key x)%Z l -> insert_by key x l = x :: l.
Proof.
  destruct l as [| y l]; intros H; cbn [insert_by]; [reflexivity |].
  apply Forall_cons in H as [Hy _]. apply Z.leb_le in Hy. rewrite Hy. reflexivity.
Qed.

Lemma insert_by_skip (x d : A) (l1 l2 : list A) :
  Forall (fun y => key y <= key d)%Z l2 ->
  exists l1' l2', insert_by key x (l1 ++ d :: l2) = l1' ++ d :: l2' /\
                  insert_by key x (l1 ++ l2) = l1' ++ l2'.
Proof.
  intros H2. induction l1 as [| e l1 IH]; cbn [app insert_by].
  - destruct (key d <=? key x)%Z eqn:Ed.
    + exists [x], l2. split; [reflexivity |]. apply insert_by_head.
      apply Z.leb_le in Ed. eapply Forall_impl; [exact H2 |]. intros y Hy. cbv beta in *. lia.
    + exists [], (insert_by key x l2). split; reflexivity.
  - destruct (key e <=? key x)%Z.
    + exists (x :: e :: l1), l2. split; reflexivity.
    + destruct IH as (l1' & l2' & E1 & E2). exists (e :: l1'), l2'.
      rewrite E1, E2. split; reflexivity.
Qed.

(** Stability: removing one element from the input removes it from the
    output and leaves the others in place. *)
Lemma sort_by_skip (a : list A) (d : A) (b : list A) :
  exists l1 l2, sort_by key (a ++ d :: b) = l1 ++ d :: l2 /\
                sort_by key (a ++ b) = l1 ++ l2.
Proof.
  induction a as [| x a IH]; cbn [app sort_by].
  - destruct (insert_by_split d (sort_by key b)) as (l1 & l2 & E1 & E2).
    exists l1, l2. rewrite E2, E1. split; reflexivity.
  - destruct IH as (l1 & l2 & E1 & E2). rewrite E1, E2.
    apply insert_by_skip.
    pose proof (sort_by_sorted (a ++ d :: b)) as Hs. rewrite E1 in Hs.
    apply StronglySorted_app_1_r, StronglySorted_cons in Hs as [Hd _]. exact Hd.
Qed.

Lemma sorted_desc_strict (l : list A) :
  StronglySorted desc l -> NoDup (map key l) ->
  StronglySorted (fun a b => key b < key a)%Z l.
Proof.
  induction l as [| x l IH]; intros Hs Hn; [constructor |].
  apply StronglySorted_cons in Hs as [Hx Hs]. cbn [map] in Hn.
  apply NoDup_cons in Hn as [Hnot Hn]. apply StronglySorted_cons. split; [| auto].
  rewrite Forall_forall in Hx |- *. intros y Hy. specialize (Hx y Hy). unfold desc in Hx.
  assert (key y <> key x); [| lia].
  intros E. apply Hnot. rewrite <- E. apply list_elem_of_In, in_map, list_elem_of_In, Hy.
Qed.
(** The element inserted goes after exactly the elements with a larger key. *)
Lemma insert_by_split_gt (d : A) (l : list A) :
  exists l1 l2, l = l1 ++ l2 /\ insert_by key d l = l1 ++ d :: l2 /\
                Forall (fun y => key d < key y)%Z l1.
Proof.
  induction l as [| e l IH]; cbn [insert_by].
  - exists [], []. split; [reflexivity |]. split; [reflexivity | constructor].
  - destruct (key e <=? key d)%Z eqn:Ek.
    + exists [], (e :: l). split; [reflexivity |]. split; [reflexivity | constructor].
    + apply Z.leb_gt in Ek. destruct IH as (l1 & l2 & -> & -> & H1).
      exists (e :: l1), l2. split; [reflexivity |]. split; [reflexivity |]. constructor; assumption.
Qed.

(** Stability: the elements with one key value keep their input order. *)
Lemma sort_by_stable (t : Z) (l : list A) :
  filter (fun e => key e = t) (sort_by key l) = filter (fun e => key e = t) l.
Proof.
  induction l as [| d l IH]; [reflexivity |]. cbn [sort_by].
  destruct (insert_by_split_gt d (sort_by key l)) as (l1 & l2 & E & E' & H1).
  rewrite E', filter_app. rewrite E, filter_app in IH.
  destruct (decide (key d = t)) as [Hd | Hd].
  - assert (F1 : filter (fun e => key e = t) l1 = []).
    { clear -H1 Hd. induction l1 as [| y l1 IHl]; [reflexivity |].
      apply Forall_cons in H1 as [Hy H1]. rewrite filter_cons_False by lia. auto. }
    rewrite F1 in IH |- *. rewrite !filter_cons_True by exact Hd. rewrite <- IH. reflexivity.
  - rewrite !filter_cons_False by exact Hd. exact IH.
Qed.
End SortBy.

(** ** getHistory under a reliable store *)

(** The keys of the store under a prefix, in the order the map yields them. *)
Definition keys_under (s : St) (pfx : string) : list string :=
  filter (fun k => String.prefix pfx k = true) (map fst (map_to_list (kv s))).

(** The record the loop of lines 153-162 keeps for a key, if any. *)
Definition decode_at (s : St) (k : string) : option UptimeData := decode_current (kv s !! k).

(** The decodable history entries of target [n], as a multiset. *)
Definition history_entries (s : St) (n : string) : list UptimeData :=
  omap (decode_at s) (keys_under s (history_prefix n)).

Lemma omap_cons_eq {A B} (f : A -> option B) (x : A) (l : list A) :
  omap f (x :: l) = match f x with Some y => y :: omap f l | None => omap f l end.
Proof. reflexivity. Qed.

Lemma collect_run (keys : list string) (h : list UptimeData) (s : St) :
  reliable s ->
  collect keys h s =
    ({| kv := kv s; log := (log s ++ map OpGet keys)%list; broken := broken s |},
     inl (h ++ omap (decode_at s) keys)%list).
Proof.
  revert h s. induction keys as [| k rest IH]; intros h s Hr.
  - destruct s as [m lg b]. cbn. rewrite !app_nil_r. reflexivity.
  - cbn [collect]. unfold mbind, M_bind, kv_get. rewrite Hr. cbv zeta.
    rewrite IH by (intros x; apply Hr).
    change (decode_at (log_op (OpGet k) s)) with (decode_at s). cbn [kv log broken log_op].
    rewrite omap_cons_eq. cbn [map]. rewrite <- app_assoc. unfold decode_at.
    destruct (kv s !! k) as [v |]; cbn [decode_current];
      [destruct (truthy v); [destruct (parse v) |] |];
      rewrite ?app_nil_r, <- ?app_assoc; reflexivity.
Qed.

Lemma getHistory_run (n : string) (s : St) :
  reliable s -> n <> "" ->
  (getHistory (Some n) s).2 =
    inl {| resp_status := 200;
           resp_body := BHistory (take 100 (sort_desc (omap (decode_at s)
             (take KV_LIST_LIMIT (KeySort.sort (keys_under s (history_prefix n))))))) |}.
Proof.
  intros Hr Hn. destruct n as [| c n']; [congruence |].
  unfold getHistory. cbv beta iota. unfold mbind, M_bind, kv_list. rewrite Hr. cbv zeta.
  rewrite collect_run by (intros x; apply Hr). reflexivity.
Qed.

Lemma map_as_fmap {A B} (f : A -> B) (l : list A) : map f l = f <$> l.
Proof. induction l as [| x l IH]; [reflexivity |]. cbn [map]. rewrite IH. reflexivity. Qed.

Lemma key_leb_trans : Transitive (fun x y : string => is_true (KeyOrder.leb x y)).
Proof.
  intros a b c H1 H2. unfold is_true, KeyOrder.leb in *.
  apply Is_true_true. apply (transitivity (R:=String.le) (y:=b)); apply Is_true_true; assumption.
Qed.

(** The listed keys do not depend on the map's enumeration order. *)
Lemma key_sort_perm (l1 l2 : list string) : l1 ≡ₚ l2 -> KeySort.sort l1 = KeySort.sort l2.
Proof.
  intros Hp. apply (StronglySorted_unique_strong (fun x y => is_true (KeyOrder.leb x y))).
  - intros x1 x2 _ _ H1 H2. apply String.leb_antisym; assumption.
  - apply KeySort.StronglySorted_sort, key_leb_trans.
  - apply KeySort.StronglySorted_sort, key_leb_trans.
  - rewrite <- !KeySort.Permuted_sort. exact Hp.
Qed.

Lemma keys_insert_existing (m : gmap string Val) (k : string) (v v' : Val) :
  m !! k = Some v -> map fst (map_to_list (<[k:=v']> m)) ≡ₚ map fst (map_to_list m).
Proof.
  intros Hk. rewrite <- (insert_delete_id m k v Hk) at 2. rewrite <- insert_delete_eq.
  rewrite !map_as_fmap, !map_to_list_insert by apply lookup_delete_eq. reflexivity.
Qed.

Lemma keys_under_NoDup (s : St) (pfx : string) : NoDup (keys_under s pfx).
Proof. unfold keys_under. apply NoDup_filter. rewrite map_as_fmap. apply NoDup_fst_map_to_list. Qed.

Lemma keys_under_elem (s : St) (pfx k : string) (v : Val) :
  kv s !! k = Some v -> String.prefix pfx k = true -> k ∈ keys_under s pfx.
Proof.
  intros Hk Hp. unfold keys_under. apply list_elem_of_filter. split; [exact Hp |].
  rewrite map_as_fmap. apply list_elem_of_fmap. exists (k, v). split; [reflexivity |].
  apply elem_of_map_to_list, Hk.
Qed.

Lemma omap_ext_notin (f g : string -> option UptimeData) (k : string) (l : list string) :
  k ∉ l -> (forall x, x <> k -> f x = g x) -> omap f l = omap g l.
Proof.
  intros Hk Hfg. induction l as [| x l IH]; [reflexivity |].
  apply not_elem_of_cons in Hk as [Hx Hk]. rewrite !omap_cons_eq.
  rewrite Hfg by (intros ->; apply Hx; reflexivity). rewrite IH by exact Hk. reflexivity.
Qed.

Lemma decode_at_bad (s : St) (k raw : string) :
  decode_at (set_kv (<[k:=VBad raw]> (kv s)) s) k = None.
Proof.
  unfold decode_at, set_kv. cbn [kv]. rewrite lookup_insert_eq. cbn [decode_current parse].
  destruct (truthy (VBad raw)); reflexivity.
Qed.

(** Replacing one stored record under the prefix by an unparsable value
    removes that record from the sorted history and leaves the others in
    place. *)
Lemma history_skip (pfx : string) (s : St) (k : string) (d : UptimeData) (raw : string) :
  kv s !! k = Some (VRec d) -> String.prefix pfx k = true ->
  KeySort.sort (keys_under (set_kv (<[k:=VBad raw]> (kv s)) s) pfx) =
    KeySort.sort (keys_under s pfx) /\
  exists l1 l2,
    sort_desc (omap (decode_at s) (KeySort.sort (keys_under s pfx))) = (l1 ++ d :: l2)%list /\
    sort_desc (omap (decode_at (set_kv (<[k:=VBad raw]> (kv s)) s))
                    (KeySort.sort (keys_under s pfx))) = (l1 ++ l2)%list.
Proof.
  intros Hk Hp. split.
  - apply key_sort_perm. unfold keys_under. cbn [kv set_kv].
    rewrite (keys_insert_existing _ _ _ _ Hk). reflexivity.
  - pose proof (decode_at_bad s k raw) as Hbad.
    assert (Hsame : forall x, x <> k ->
              decode_at (set_kv (<[k:=VBad raw]> (kv s)) s) x = decode_at s x).
    { intros x Hx. unfold decode_at, set_kv. cbn [kv].
      rewrite lookup_insert_ne by congruence. reflexivity. }
    assert (Hd : decode_at s k = Some d) by (unfold decode_at; rewrite Hk; reflexivity).
    set (s' := set_kv (<[k:=VBad raw]> (kv s)) s) in *.
    assert (HK : KeySort.sort (keys_under s pfx) ≡ₚ keys_under s pfx)
      by (symmetry; apply KeySort.Permuted_sort).
    assert (Hin : k ∈ KeySort.sort (keys_under s pfx))
      by (rewrite HK; eapply keys_under_elem; eauto).
    assert (Hnd : NoDup (KeySort.sort (keys_under s pfx)))
      by (rewrite HK; apply keys_under_NoDup).
    apply list_elem_of_split in Hin as (a & b & EK). rewrite EK in Hnd |- *.
    apply NoDup_app in Hnd as (_ & Ha & Hnd). apply NoDup_cons in Hnd as [Hb _].
    assert (Hka : k ∉ a) by (intros H; apply (Ha k H); apply elem_of_cons; left; reflexivity).
    rewrite !omap_app, !omap_cons_eq, Hbad, Hd.
    rewrite (omap_ext_notin (decode_at s') (decode_at s) k a Hka Hsame),
            (omap_ext_notin (decode_at s') (decode_at s) k b Hb Hsame).
    unfold sort_desc. apply sort_by_skip.
Qed.

Lemma listed_all (s : St) (pfx : string) :
  (length (keys_under s pfx) <= KV_LIST_LIMIT)%nat ->
  take KV_LIST_LIMIT (KeySort.sort (keys_under s pfx)) = KeySort.sort (keys_under s pfx).
Proof.
  intros Hl. apply take_ge.
  rewrite <- (Permutation_length (KeySort.Permuted_sort (keys_under s pfx))). exact Hl.
Qed.

(** ** C2: the history query *)

(** The decodable history entries of target [n] in the order getHistory
    reads them: the key order of the listing. *)
Definition history_in_key_order (s : St) (n : string) : list UptimeData :=
  omap (decode_at s) (KeySort.sort (keys_under s (history_prefix n))).

(** C2 (amended).  For a store whose operations succeed, a non-empty
    target name and at most [KV_LIST_LIMIT] (1000) keys under the target's
    history prefix, getHistory answers 200 with [out] where, for some
    [rest]: [out ++ rest] is a permutation of the decodable entries under
    the prefix; [out] has [min 100 N] entries for N decodable entries; [out]
    is sorted by non-increasing timestamp, strictly decreasing when the
    entries' timestamps are pairwise distinct; entries with equal
    timestamps keep their key order; no entry of [rest] is newer
    than an entry of [out]; and replacing one stored record by an
    unparsable value gives the same sorted list with that record removed,
    truncated to 100. *)
Theorem getHistory_sorted_top100 (n : string) (s : St) :
  reliable s -> n <> "" ->
  (length (keys_under s (history_prefix n)) <= KV_LIST_LIMIT)%nat ->
  exists out rest,
    (getHistory (Some n) s).2 = inl {| resp_status := 200; resp_body := BHistory out |} /\
    (out ++ rest)%list ≡ₚ history_entries s n /\
    length out = Nat.min 100 (length (history_entries s n)) /\
    StronglySorted (fun a b => timestamp b <= timestamp a) out /\
    (NoDup (map timestamp (history_entries s n)) ->
       StronglySorted (fun a b => timestamp b < timestamp a) out) /\
    (forall t, filter (fun e => timestamp e = t) (out ++ rest)%list =
               filter (fun e => timestamp e = t) (history_in_key_order s n)) /\
    (forall a b, a ∈ rest -> b ∈ out -> timestamp a <= timestamp b) /\
    (forall k d raw, kv s !! k = Some (VRec d) ->
       String.prefix (history_prefix n) k = true ->
       exists l1 l2,
         out = take 100 (l1 ++ d :: l2)%list /\
         (getHistory (Some n) (set_kv (<[k:=VBad raw]> (kv s)) s)).2 =
           inl {| resp_status := 200; resp_body := BHistory (take 100 (l1 ++ l2)%list) |}).
Proof.
  intros Hr Hn Hl.
  set (pfx := history_prefix n) in *.
  set (sorted := sort_desc (omap (decode_at s) (KeySort.sort (keys_under s pfx)))).
  assert (Hperm : sorted ≡ₚ history_entries s n).
  { unfold sorted, sort_desc, history_entries. rewrite sort_by_perm.
    fold pfx. rewrite <- KeySort.Permuted_sort. reflexivity. }
  assert (Hsorted : StronglySorted (desc timestamp) sorted) by apply sort_by_sorted.
  pose proof (firstn_skipn 100 sorted) as Esplit.
  exists (take 100 sorted), (drop 100 sorted).
  rewrite <- Esplit in Hsorted. apply StronglySorted_app in Hsorted as (Hcross & Hout & _).
  split; [| split; [| split; [| split; [| split; [| split; [| split]]]]]].
  - rewrite getHistory_run by assumption. fold pfx. rewrite listed_all by exact Hl. reflexivity.
  - change (take 100 sorted ++ drop 100 sorted)%list with (firstn 100 sorted ++ skipn 100 sorted)%list.
    rewrite Esplit. exact Hperm.
  - rewrite length_take, (Permutation_length Hperm). reflexivity.
  - exact Hout.
  - intros Hnd. apply sorted_desc_strict; [exact Hout |].
    rewrite <- Hperm, <- Esplit, map_app in Hnd. apply NoDup_app in Hnd as [Hnd _]. exact Hnd.
  - intros t.
    change (take 100 sorted ++ drop 100 sorted)%list with (firstn 100 sorted ++ skipn 100 sorted)%list.
    rewrite Esplit. unfold sorted, sort_desc. apply sort_by_stable.
  - intros a b Ha Hb. exact (Hcross b a Hb Ha).
  - intros k d raw Hk Hp.
    destruct (history_skip pfx s k d raw Hk Hp) as (Ekeys & l1 & l2 & E1 & E2).
    exists l1, l2. split.
    + unfold sorted. rewrite E1. reflexivity.
    + assert (Hr' : reliable (set_kv (<[k:=VBad raw]> (kv s)) s)) by exact Hr.
      rewrite getHistory_run by assumption. fold pfx.
      rewrite Ekeys, listed_all by exact Hl. rewrite E2. reflexivity.
Qed.

(** ** Concrete scenarios *)

Definition empty_store : St := {| kv := ∅; log := []; broken := fun _ => false |}.

Definition site_named (n : string) : SiteCheck :=
  {| site_name := n; url := "https://teyvatarchive.online/api/health"; timeout := 10000 |}.

(** A probe answered with [200 OK] at time [ts]. *)
Definition up_probe (ts : Z) : Probe :=
  {| now_start := ts; now_timestamp := ts; now_response := ts; now_catch := ts;
     fetch_outcome := Resolved true 200 |}.

Definition up_record (ts : Z) : UptimeData :=
  {| status := Up; responseTime := 0; statusCode := Some 200; error := None; timestamp := ts |}.

(** Two checks at the same instant, of targets [main] and [main_5]: both
    history keys, [history_main_5] and [history_main_5_5], lie under the
    prefix [history_main_]. *)
Definition tie_store : St :=
  (checkSite (site_named "main_5") (up_probe 5)
     (checkSite (site_named "main") (up_probe 5) empty_store).1).1.

(** 1001 history entries of [main], timestamps 1000 to 2000. *)
Definition paged_store : St :=
  {| kv := list_to_map (map (fun i => (history_key "main" (Z.of_nat i), VRec (up_record (Z.of_nat i))))
                            (seq 1000 1001));
     log := []; broken := fun _ => false |}.

(** A store holding a marker that does not parse. *)
Definition corrupt_store : St :=
  {| kv := <[last_history_key "main" := VBad "{truncated"]> ∅; log := []; broken := fun _ => false |}.

(** A store whose marker was written 500 ms before the probe. *)
Definition stable_store : St :=
  {| kv := <[last_history_key "main" := VRec (up_record 500)]> ∅; log := []; broken := fun _ => false |}.

(** One [list] call returns the first 1000 keys in key order: with 1001
    entries, [history_main_2000] sorts last and the newest entry is not
    returned, although it is a decodable entry under the prefix. *)
Lemma getHistory_first_page_only :
  length (keys_under paged_store (history_prefix "main")) = 1001%nat /\
  existsb (fun d => (timestamp d =? 2000)%Z) (history_entries paged_store "main") = true /\
  match (getHistory (Some "main") paged_store).2 with
  | inl r =>
      resp_status r = 200 /\
      match resp_body r with
      | BHistory out => length out = 100%nat /\ forallb (fun d => (timestamp d <? 2000)%Z) out = true
      | _ => False
      end
  | inr _ => False
  end.
Proof.
  split; [vm_compute; reflexivity |]. split; [vm_compute; reflexivity |].
  vm_compute. repeat split.
Qed.

(** C2 (counterexample).  Entries with equal timestamps stay tied: two
    checks at the same instant leave two entries under [history_main_]
    with timestamp 5, and the answer is not strictly descending. *)
Lemma getHistory_ties_not_strict :
  reliable tie_store /\
  (getHistory (Some "main") tie_store).2 =
    inl {| resp_status := 200; resp_body := BHistory [up_record 5; up_record 5] |} /\
  ~ StronglySorted (fun a b => timestamp b < timestamp a) [up_record 5; up_record 5].
Proof.
  split; [intros k; reflexivity |]. split; [vm_compute; reflexivity |].
  intros H. apply StronglySorted_cons in H as [HF _].
  apply Forall_cons in HF as [Hlt _]. cbn in Hlt. lia.
Qed.

(** A probe whose fetch was aborted by the timeout timer. *)
Definition aborted_probe (ts : Z) : Probe :=
  {| now_start := ts; now_timestamp := ts; now_response := ts; now_catch := ts + 10000;
     fetch_outcome := Rejected "The operation was aborted" |}.

(** ** Instances of the theorems *)

Lemma checkSite_sampling_rule_witness :
  reliable empty_store /\
  let n := site_name (site_named "main") in
  let marker := kv empty_store !! last_history_key n in
  let '(s', r) := checkSite (site_named "main") (up_probe 1000) empty_store in
  r = inl () /\
  exists d : UptimeData,
    kv s' !! current_key n = Some (VRec d) /\
    timestamp d = now_timestamp (up_probe 1000) /\
    status d = match fetch_outcome (up_probe 1000) with Resolved true _ => Up | _ => Down end /\
    ((exists v ttl, OpPut (history_key n (now_timestamp (up_probe 1000))) v ttl
                      ∈ ops_since empty_store s')
       <-> sample_rule marker d) /\
    ((exists v ttl, OpPut (last_history_key n) v ttl ∈ ops_since empty_store s')
       <-> sample_rule marker d).
Proof.
  split; [intros k; reflexivity |].
  apply (checkSite_sampling_rule (site_named "main") (up_probe 1000) empty_store).
  intros k; reflexivity.
Defined.

Lemma checkSite_status_up_iff_ok_witness :
  reliable empty_store /\
  let '(s', r) := checkSite (site_named "main") (aborted_probe 1000) empty_store in
  r = inl () /\
  (exists d, OpPut (current_key (site_name (site_named "main"))) (VRec d) None
               ∈ ops_since empty_store s') /\
  forall k d ttl, OpPut k (VRec d) ttl ∈ ops_since empty_store s' ->
    (status d = Up <-> exists code, fetch_outcome (aborted_probe 1000) = Resolved true code).
Proof.
  split; [intros k; reflexivity |].
  apply (checkSite_status_up_iff_ok (site_named "main") (aborted_probe 1000) empty_store).
  intros k; reflexivity.
Defined.

Lemma checkSite_corrupt_marker_as_absent_witness :
  reliable corrupt_store /\
  kv corrupt_store !! last_history_key (site_name (site_named "main")) = Some (VBad "{truncated") /\
  let n := site_name (site_named "main") in
  checkSite (site_named "main") (up_probe 1000) corrupt_store =
    checkSite (site_named "main") (up_probe 1000)
      (set_kv (delete (last_history_key n) (kv corrupt_store)) corrupt_store) /\
  let '(s', _) := checkSite (site_named "main") (up_probe 1000) corrupt_store in
  exists d,
    kv s' !! current_key n = Some (VRec d) /\
    OpPut (history_key n (now_timestamp (up_probe 1000))) (VRec d) (Some HISTORY_TTL)
      ∈ ops_since corrupt_store s' /\
    OpPut (last_history_key n) (VRec d) None ∈ ops_since corrupt_store s' /\
    kv s' !! history_key n (now_timestamp (up_probe 1000)) = Some (VRec d) /\
    kv s' !! last_history_key n = Some (VRec d).
Proof.
  split; [intros k; reflexivity |]. split; [reflexivity |].
  apply (checkSite_corrupt_marker_as_absent (site_named "main") (up_probe 1000) corrupt_store
           "{truncated").
  - intros k; reflexivity.
  - reflexivity.
Defined.

Lemma checkSite_stable_no_history_witness :
  reliable stable_store /\
  kv stable_store !! last_history_key (site_name (site_named "main")) = Some (VRec (up_record 500)) /\
  status (up_record 500) =
    match fetch_outcome (up_probe 1000) with Resolved true _ => Up | _ => Down end /\
  now_timestamp (up_probe 1000) - timestamp (up_record 500) <= TWO_HOURS /\
  let n := site_name (site_named "main") in
  let '(s', r) := checkSite (site_named "main") (up_probe 1000) stable_store in
  r = inl () /\
  exists d,
    status d = status (up_record 500) /\ timestamp d = now_timestamp (up_probe 1000) /\
    ops_since stable_store s' = [OpPut (current_key n) (VRec d) None; OpGet (last_history_key n)] /\
    kv s' = <[current_key n := VRec d]> (kv stable_store) /\
    kv s' !! last_history_key n = Some (VRec (up_record 500)).
Proof.
  assert (Hts : now_timestamp (up_probe 1000) - timestamp (up_record 500) <= TWO_HOURS)
    by (cbn; unfold TWO_HOURS; lia).
  split; [intros k; reflexivity |]. split; [reflexivity |]. split; [reflexivity |].
  split; [exact Hts |].
  apply (checkSite_stable_no_history (site_named "main") (up_probe 1000) stable_store (up_record 500)).
  - intros k; reflexivity.
  - reflexivity.
  - reflexivity.
  - exact Hts.
Defined.

Lemma getHistory_sorted_top100_witness :
  reliable tie_store /\ "main" <> "" /\
  (length (keys_under tie_store (history_prefix "main")) <= KV_LIST_LIMIT)%nat /\
  exists out rest,
    (getHistory (Some "main") tie_store).2 =
      inl {| resp_status := 200; resp_body := BHistory out |} /\
    (out ++ rest)%list ≡ₚ history_entries tie_store "main" /\
    length out = Nat.min 100 (length (history_entries tie_store "main")) /\
    StronglySorted (fun a b => timestamp b <= timestamp a) out /\
    (NoDup (map timestamp (history_entries tie_store "main")) ->
       StronglySorted (fun a b => timestamp b < timestamp a) out) /\
    (forall t, filter (fun e => timestamp e = t) (out ++ rest)%list =
               filter (fun e => timestamp e = t) (history_in_key_order tie_store "main")) /\
    (forall a b, a ∈ rest -> b ∈ out -> timestamp a <= timestamp b) /\
    (forall k d raw, kv tie_store !! k = Some (VRec d) ->
       String.prefix (history_prefix "main") k = true ->
       exists l1 l2,
         out = take 100 (l1 ++ d :: l2)%list /\
         (getHistory (Some "main") (set_kv (<[k:=VBad raw]> (kv tie_store)) tie_store)).2 =
           inl {| resp_status := 200; resp_body := BHistory (take 100 (l1 ++ l2)%list) |}).
Proof.
  assert (Hl : (length (keys_under tie_store (history_prefix "main")) <= KV_LIST_LIMIT)%nat)
    by (apply Nat.leb_le; vm_compute; reflexivity).
  split; [intros k; reflexivity |]. split; [discriminate |]. split; [exact Hl |].
  apply (getHistory_sorted_top100 "main" tie_store).
  - intros k; reflexivity.
  - discriminate.
  - exact Hl.
Defined.

(** * The rest of the worker *)

(** ** The read path never writes *)

Definition is_read (o : Op) : Prop := match o with OpPut _ _ _ => False | _ => True end.

(** A computation that leaves the stored values and the faults alone and
    only issues reads (gets and lists), whatever the store does. *)
Definition read_only {A} (m : M A) : Prop :=
  forall s, kv (m s).1 = kv s /\ broken (m s).1 = broken s /\
            exists ops, log (m s).1 = (log s ++ ops)%list /\ Forall is_read ops.

Lemma read_only_ret {A} (a : A) : read_only (mret a).
Proof.
  intros s. split; [reflexivity |]. split; [reflexivity |].
  exists []. rewrite app_nil_r. split; [reflexivity | constructor].
Qed.

Lemma read_only_bind {A B} (m : M A) (f : A -> M B) :
  read_only m -> (forall a, read_only (f a)) -> read_only (m ≫= f).
Proof.
  intros Hm Hf s. unfold mbind, M_bind. destruct (Hm s) as (Ek & Eb & ops & El & Fo).
  destruct (m s) as [s1 [a | e]]; cbn [fst] in *.
  - destruct (Hf a s1) as (Ek' & Eb' & ops' & El' & Fo').
    split; [congruence |]. split; [congruence |].
    exists (ops ++ ops')%list. rewrite El', El, app_assoc. split; [reflexivity |].
    apply Forall_app; auto.
  - split; [exact Ek |]. split; [exact Eb |]. eauto.
Qed.

Lemma read_only_kv_get (k : string) : read_only (kv_get k).
Proof.
  intros s. unfold kv_get. cbv zeta. destruct (broken s k); cbn [fst kv broken log log_op];
    (split; [reflexivity |]; split; [reflexivity |]; exists [OpGet k]; split;
     [reflexivity | repeat constructor]).
Qed.

Lemma read_only_kv_list (p : string) : read_only (kv_list p).
Proof.
  intros s. unfold kv_list. cbv zeta. destruct (broken s p); cbn [fst kv broken log log_op];
    (split; [reflexivity |]; split; [reflexivity |]; exists [OpList p]; split;
     [reflexivity | repeat constructor]).
Qed.

Lemma read_only_status_loop (ss : list string) (acc : gmap string (option UptimeData)) :
  read_only (status_loop ss acc).
Proof.
  revert acc. induction ss as [| site rest IH]; intros acc; cbn [status_loop].
  - apply read_only_ret.
  - apply read_only_bind; [apply read_only_kv_get | intros a; apply IH].
Qed.

Lemma read_only_collect (keys : list string) (h : list UptimeData) : read_only (collect keys h).
Proof.
  revert h. induction keys as [| k rest IH]; intros h; cbn [collect].
  - apply read_only_ret.
  - apply read_only_bind; [apply read_only_kv_get | intros a; apply IH].
Qed.

Lemma read_only_getStatus : read_only getStatus.
Proof.
  unfold getStatus. apply read_only_bind; [apply read_only_status_loop | intros a; apply read_only_ret].
Qed.

Lemma read_only_getHistory (siteName : option string) : read_only (getHistory siteName).
Proof.
  unfold getHistory. destruct siteName as [[| c n] |]; try apply read_only_ret.
  apply read_only_bind; [apply read_only_kv_list | intros keys].
  apply read_only_bind; [apply read_only_collect | intros h; apply read_only_ret].
Qed.

(** The fetch handler, on every path and whatever the store does, leaves
    the stored values untouched and issues no put: only gets and lists. *)
Theorem route_never_writes (pathname : string) (site_param : option string) (s : St) :
  kv (route pathname site_param s).1 = kv s /\
  Forall is_read (ops_since s (route pathname site_param s).1).
Proof.
  assert (H : read_only (route pathname site_param)).
  { unfold route. destruct (String.eqb pathname "/api/status").
    - apply read_only_getStatus.
    - destruct (String.eqb pathname "/api/history");
        [apply read_only_getHistory | apply read_only_ret]. }
  destruct (H s) as (Ek & _ & ops & El & Fo). split; [exact Ek |].
  unfold ops_since. rewrite El, drop_app_length. exact Fo.
Qed.

(** ** Storage errors on the read path *)

Lemma status_loop_fails (ss : list string) (acc : gmap string (option UptimeData)) (s : St)
    (site : string) :
  site ∈ ss -> broken s (current_key site) = true -> exists e, (status_loop ss acc s).2 = inr e.
Proof.
  revert acc s. induction ss as [| x rest IH]; intros acc s Hin Hb.
  - apply not_elem_of_nil in Hin as [].
  - cbn [status_loop]. unfold mbind, M_bind, kv_get. cbv zeta.
    destruct (broken s (current_key x)) eqn:Ex; [eexists; reflexivity |].
    apply elem_of_cons in Hin as [-> | Hin]; [congruence |].
    apply IH; [exact Hin | exact Hb].
Qed.

(** getStatus catches only JSON errors: when reading the current slot of
    one of its four sites fails, the whole request rejects instead of
    mapping that site to [null]. *)
Theorem getStatus_propagates_get_failure (s : St) (site : string) :
  site ∈ status_sites -> broken s (current_key site) = true ->
  exists e, (getStatus s).2 = inr e.
Proof.
  intros Hin Hb. unfold getStatus, mbind, M_bind.
  destruct (status_loop_fails status_sites ∅ s site Hin Hb) as [e He].
  destruct (status_loop status_sites ∅ s) as [s1 [m | e']]; cbn [snd] in He; [discriminate |].
  eexists; reflexivity.
Qed.

Lemma collect_fails (keys : list string) (h : list UptimeData) (s : St) (k : string) :
  k ∈ keys -> broken s k = true -> exists e, (collect keys h s).2 = inr e.
Proof.
  revert h s. induction keys as [| x rest IH]; intros h s Hin Hb.
  - apply not_elem_of_nil in Hin as [].
  - cbn [collect]. unfold mbind, M_bind, kv_get. cbv zeta.
    destruct (broken s x) eqn:Ex; [eexists; reflexivity |].
    apply elem_of_cons in Hin as [-> | Hin]; [congruence |].
    apply IH; [exact Hin | exact Hb].
Qed.

(** getHistory catches only JSON errors: when listing the prefix fails,
    or reading one of the listed keys fails, the request rejects; no
    partial history is returned. *)
Theorem getHistory_propagates_failures (n : string) (s : St) :
  n <> "" ->
  broken s (history_prefix n) = true \/
  (exists k, k ∈ take KV_LIST_LIMIT (KeySort.sort (keys_under s (history_prefix n))) /\
             broken s k = true) ->
  exists e, (getHistory (Some n) s).2 = inr e.
Proof.
  intros Hn Hf. destruct n as [| c n']; [congruence |].
  unfold getHistory. cbv beta iota. unfold mbind at 1, M_bind at 1, kv_list. cbv zeta.
  destruct (broken s (history_prefix (String c n'))) eqn:Eb; [eexists; reflexivity |].
  destruct Hf as [Hf | (k & Hk & Hb)]; [congruence |].
  unfold mbind, M_bind.
  destruct (collect_fails _ [] (log_op (OpList (history_prefix (String c n'))) s) k Hk Hb)
    as [e He].
  destruct (collect _ [] _) as [s2 [h | e']]; cbn [snd] in He; [discriminate |].
  eexists; reflexivity.
Qed.

(** ** checkSite: storage faults, retention, the marker *)

(** The record the catch block builds for a storage error [message]
    raised inside the try block (lines 81-86). *)
Definition caught_record (p : Probe) (message : string) : UptimeData :=
  {| status := Down; error := Some message; statusCode := None;
     responseTime := now_catch p - now_start p; timestamp := now_timestamp p |}.

(** When the probe got a response (even [ok]) but reading the marker
    fails, the outer catch takes the storage error for a failed probe: the
    current slot is overwritten with a [down] record carrying the storage
    error's message, the marker is read again, and that second failure
    rejects the call.  No history entry is written. *)
Theorem checkSite_marker_read_failure (site : SiteCheck) (p : Probe) (s : St)
    (ok : bool) (code : Z) :
  fetch_outcome p = Resolved ok code ->
  broken s (current_key (site_name site)) = false ->
  broken s (last_history_key (site_name site)) = true ->
  let n := site_name site in
  checkSite site p s =
    ({| kv := <[current_key n := VRec (caught_record p "KV GET failed")]> (kv s);
        log := (log s ++ [OpPut (current_key n) (VRec (probe_record p)) None;
                          OpGet (last_history_key n);
                          OpPut (current_key n) (VRec (caught_record p "KV GET failed")) None;
                          OpGet (last_history_key n)])%list;
        broken := broken s |}, inr "KV GET failed").
Proof.
  intros Hf Hc Hl n. subst n.
  unfold checkSite, try_catch, fetch_site, probe_record. rewrite Hf.
  unfold mbind, M_bind, mret, M_ret, kv_put, kv_get, log_op, set_kv.
  repeat progress (cbn [kv log broken]; rewrite ?Hc, ?Hl).
  rewrite insert_insert_eq, <- !app_assoc. reflexivity.
Qed.

(** Whatever the store does, the history entry is put with
    [expirationTtl] 7 days (604800 s) and the current slot and the marker
    without expiration: only history entries expire. *)
Theorem checkSite_put_ttls (site : SiteCheck) (p : Probe) (s : St)
    (k : string) (v : Val) (ttl : option Z) :
  OpPut k v ttl ∈ ops_since s (checkSite site p s).1 ->
  (k = history_key (site_name site) (now_timestamp p) /\ ttl = Some HISTORY_TTL) \/
  ((k = current_key (site_name site) \/ k = last_history_key (site_name site)) /\ ttl = None).
Proof.
  unfold checkSite, try_catch, fetch_site, ops_since.
  destruct (fetch_outcome p) as [ok code | msg];
    unfold mbind, M_bind, mret, M_ret, throw, kv_put, kv_get, log_op, set_kv;
    repeat (cbn [kv log broken fst];
            match goal with
            | |- context [broken s ?key] => destruct (broken s key)
            | |- context [should_store ?a ?b ?c] => destruct (should_store a b c)
            end);
    cbn [kv log broken fst]; rewrite <- ?app_assoc, ?drop_app_length;
    intros Hin; apply list_elem_of_In in Hin; simpl in Hin;
    intuition (simplify_eq; auto).
Qed.

(** The marker of target [n] is a copy of the history entry stored under
    the marker's own timestamp. *)
Definition marker_consistent (s : St) (n : string) : Prop :=
  forall m, kv s !! last_history_key n = Some (VRec m) ->
            kv s !! history_key n (timestamp m) = Some (VRec m).

(** Against a reliable store (and with no expiry of entries), checkSite
    keeps the marker of its target a copy of the history entry under the
    marker's timestamp: it writes the two together or neither. *)
Theorem checkSite_marker_consistent (site : SiteCheck) (p : Probe) (s : St) :
  reliable s -> marker_consistent s (site_name site) ->
  marker_consistent (checkSite site p s).1 (site_name site).
Proof.
  intros Hr Hc m Hm. rewrite (checkSite_run site p s Hr) in Hm |- *. cbn [fst kv] in Hm |- *.
  unfold sampled_kv in Hm |- *.
  key_facts (site_name site) (timestamp (probe_record p)).
  destruct (should_store _ _ _).
  - rewrite lookup_insert_eq in Hm. injection Hm as <-.
    rewrite lookup_insert_ne by congruence. apply lookup_insert_eq.
  - rewrite lookup_insert_ne in Hm by apply current_last_ne.
    rewrite lookup_insert_ne by apply not_eq_sym, history_current_ne.
    apply Hc, Hm.
Qed.

(** After a check of one of the four sites against a reliable store, the
    status endpoint reports that check's record for the site. *)
Theorem getStatus_after_checkSite (site : SiteCheck) (p : Probe) (s : St) :
  reliable s -> site_name site ∈ status_sites ->
  exists m,
    (getStatus (checkSite site p s).1).2 =
      inl {| resp_status := 200; resp_body := BStatuses m |} /\
    m !! site_name site = Some (Some (probe_record p)).
Proof.
  intros Hr Hin. exists (status_map (checkSite site p s).1).
  assert (Hr' : reliable (checkSite site p s).1)
    by (rewrite (checkSite_run site p s Hr); exact Hr).
  rewrite getStatus_run by exact Hr'. split; [reflexivity |].
  rewrite status_map_lookup, decide_True by exact Hin.
  rewrite (checkSite_run site p s Hr). cbn [fst kv]. rewrite sampled_kv_current. reflexivity.
Qed.

(** ** Written history is read back *)

Lemma prefix_self_app (p x : string) : String.prefix p (p ++ x) = true.
Proof.
  induction p as [| a p IH]; [destruct x; reflexivity |].
  change (String.prefix (String a p) (String a (p ++ x)) = true). cbn [String.prefix].
  destruct (ascii_dec a a) as [_ | Hne]; [exact IH | congruence].
Qed.

Lemma history_prefix_current (n : string) : String.prefix (history_prefix n) (current_key n) = false.
Proof. reflexivity. Qed.

Lemma history_prefix_last (n : string) : String.prefix (history_prefix n) (last_history_key n) = false.
Proof. reflexivity. Qed.

Lemma history_key_prefix (n : string) (ts : Z) : String.prefix (history_prefix n) (history_key n ts) = true.
Proof.
  unfold history_key, history_prefix.
  replace ("history_" ++ n ++ "_" ++ z_to_string ts)
    with (("history_" ++ n ++ "_") ++ z_to_string ts) by (rewrite !string_app_assoc; reflexivity).
  apply prefix_self_app.
Qed.

Lemma keys_under_spec (s : St) (pfx k : string) :
  k ∈ keys_under s pfx <-> String.prefix pfx k = true /\ is_Some (kv s !! k).
Proof.
  unfold keys_under. rewrite list_elem_of_filter, map_as_fmap, list_elem_of_fmap.
  split.
  - intros [Hp ([k' v] & -> & Hin)]. apply elem_of_map_to_list in Hin. split; [exact Hp |]. eauto.
  - intros [Hp [v Hv]]. split; [exact Hp |]. exists (k, v). split; [reflexivity |].
    apply elem_of_map_to_list, Hv.
Qed.

Lemma history_entries_spec (s : St) (n : string) (e : UptimeData) :
  e ∈ history_entries s n <->
  exists k, String.prefix (history_prefix n) k = true /\ decode_at s k = Some e.
Proof.
  unfold history_entries. rewrite list_elem_of_omap. split.
  - intros (k & Hk & He). apply keys_under_spec in Hk as [Hp _]. eauto.
  - intros (k & Hp & He). exists k. split; [| exact He]. apply keys_under_spec. split; [exact Hp |].
    unfold decode_at in He. destruct (kv s !! k); [eauto | discriminate].
Qed.

(** Against a reliable store, when checkSite samples (it writes a history
    entry) and every decodable entry already under the target's prefix is
    older than the new record, the history query for the target then
    answers with the new record first (with at most 1000 keys under the
    prefix, one listing page). *)
Theorem getHistory_after_sampled_check (site : SiteCheck) (p : Probe) (s : St) :
  reliable s -> site_name site <> "" ->
  should_store (kv s !! last_history_key (site_name site)) (status (probe_record p))
    (now_timestamp p) = true ->
  (forall e, e ∈ history_entries s (site_name site) -> timestamp e < now_timestamp p) ->
  (length (keys_under (checkSite site p s).1 (history_prefix (site_name site)))
     <= KV_LIST_LIMIT)%nat ->
  exists rest,
    (getHistory (Some (site_name site)) (checkSite site p s).1).2 =
      inl {| resp_status := 200; resp_body := BHistory (probe_record p :: rest) |}.
Proof.
  intros Hr Hn Hsto Hold Hl.
  set (n := site_name site) in *. set (d := probe_record p).
  assert (Hts : timestamp d = now_timestamp p) by apply probe_record_timestamp.
  assert (Hr' : reliable (checkSite site p s).1)
    by (rewrite (checkSite_run site p s Hr); exact Hr).
  rewrite getHistory_run by assumption. rewrite listed_all by exact Hl.
  set (s' := (checkSite site p s).1) in *.
  assert (Hkv : kv s' = <[last_history_key n := VRec d]>
                          (<[history_key n (now_timestamp p) := VRec d]>
                             (<[current_key n := VRec d]> (kv s)))).
  { unfold s'. pose proof (checkSite_run site p s Hr) as E. cbv zeta in E. rewrite E.
    cbn [fst kv]. unfold d, n in *. rewrite probe_record_timestamp, Hsto.
    unfold sampled_kv. rewrite probe_record_timestamp. reflexivity. }
  set (L := sort_desc (omap (decode_at s') (KeySort.sort (keys_under s' (history_prefix n))))).
  assert (Hperm : L ≡ₚ history_entries s' n).
  { unfold L, sort_desc, history_entries. rewrite sort_by_perm.
    rewrite <- KeySort.Permuted_sort. reflexivity. }
  assert (Hsorted : StronglySorted (desc timestamp) L) by apply sort_by_sorted.
  key_facts n (now_timestamp p).
  assert (Hd : d ∈ L).
  { rewrite Hperm. apply history_entries_spec. exists (history_key n (now_timestamp p)).
    split; [apply history_key_prefix |]. unfold decode_at. rewrite Hkv.
    rewrite lookup_insert_ne by congruence. rewrite lookup_insert_eq. reflexivity. }
  assert (Hothers : forall e, e ∈ L -> e = d \/ timestamp e < now_timestamp p).
  { intros e He. rewrite Hperm in He. apply history_entries_spec in He as (k & Hp & Hk).
    destruct (decide (k = history_key n (now_timestamp p))) as [-> | Hne].
    - left. unfold decode_at in Hk. rewrite Hkv in Hk.
      rewrite lookup_insert_ne, lookup_insert_eq in Hk by congruence.
      injection Hk as <-. reflexivity.
    - right. apply Hold. apply history_entries_spec. exists k. split; [exact Hp |].
      assert (k <> last_history_key n) by (intros ->; rewrite history_prefix_last in Hp; discriminate).
      assert (k <> current_key n) by (intros ->; rewrite history_prefix_current in Hp; discriminate).
      unfold decode_at in Hk |- *. rewrite Hkv in Hk.
      rewrite !lookup_insert_ne in Hk by congruence. exact Hk. }
  destruct L as [| x rest] eqn:EL; [apply not_elem_of_nil in Hd as [] |].
  exists (take 99 rest). cbn [take]. do 3 f_equal.
  apply StronglySorted_cons in Hsorted as [Hx _]. rewrite Forall_forall in Hx.
  destruct (Hothers x (proj2 (elem_of_cons _ _ _) (or_introl eq_refl))) as [-> | Hlt]; [reflexivity |].
  exfalso. apply elem_of_cons in Hd as [-> | Hd]; [lia |].
  specialize (Hx d Hd). unfold desc in Hx. lia.
Qed.

(** ** Concurrent checks: the scheduled handler (index.ts lines 196-199) *)

(** An async function as the tree of the KV requests it awaits: each
    request carries the continuation resumed with its outcome (the value,
    or the error the call rejects with). *)
Inductive Task (A : Type) : Type :=
  | TDone (r : A + string)
  | TGet (k : string) (next : option Val + string -> Task A)
  | TPut (k : string) (v : Val) (ttl : option Z) (next : unit + string -> Task A).
Arguments TDone {A} r.
Arguments TGet {A} k next.
Arguments TPut {A} k v ttl next.

Fixpoint t_bind {A B} (f : A -> Task B) (t : Task A) : Task B :=
  match t with
  | TDone (inl a) => f a
  | TDone (inr e) => TDone (inr e)
  | TGet k c => TGet k (fun x => t_bind f (c x))
  | TPut k v ttl c => TPut k v ttl (fun x => t_bind f (c x))
  end.

Global Instance Task_ret : MRet Task := fun A a => TDone (inl a).
Global Instance Task_bind : MBind Task := @t_bind.

(** [try { t } catch (error) { h(error) }] around code that awaits. *)
Fixpoint t_catch {A} (t : Task A) (h : string -> Task A) : Task A :=
  match t with
  | TDone (inl a) => TDone (inl a)
  | TDone (inr e) => h e
  | TGet k c => TGet k (fun x => t_catch (c x) h)
  | TPut k v ttl c => TPut k v ttl (fun x => t_catch (c x) h)
  end.

Definition t_throw {A} (msg : string) : Task A := TDone (inr msg).
Definition t_get (k : string) : Task (option Val) := TGet k TDone.
Definition t_put (k : string) (v : Val) (ttl : option Z) : Task unit := TPut k v ttl TDone.

Definition t_fetch (p : Probe) : Task (bool * Z) :=
  match fetch_outcome p with
  | Resolved ok code => mret (ok, code)
  | Rejected message => t_throw message
  end.

(** checkSite (lines 19-121) as a task. *)
Definition checkSite_task (site : SiteCheck) (p : Probe) : Task unit :=
  let start := now_start p in
  let ts := now_timestamp p in
  t_catch (A:=unit)
    (response ← t_fetch p;
     let '(ok, code) := (response : bool * Z) in
     let rt := now_response p - start in
     let st := if ok then Up else Down in
     let data := {| status := st; responseTime := rt; statusCode := Some code;
                    error := None; timestamp := ts |} in
     t_put (current_key (site_name site)) (VRec data) None;;
     let lastHistoryKey := last_history_key (site_name site) in
     lastHistory ← t_get lastHistoryKey;
     if should_store lastHistory st ts then
       t_put (history_key (site_name site) ts) (VRec data) (Some HISTORY_TTL);;
       t_put lastHistoryKey (VRec data) None
     else mret ())
    (fun message =>
     let data := {| status := Down; error := Some message; statusCode := None;
                    responseTime := now_catch p - start; timestamp := ts |} in
     t_put (current_key (site_name site)) (VRec data) None;;
     let lastHistoryKey := last_history_key (site_name site) in
     lastHistory ← t_get lastHistoryKey;
     if should_store lastHistory Down ts then
       t_put (history_key (site_name site) ts) (VRec data) (Some HISTORY_TTL);;
       t_put lastHistoryKey (VRec data) None
     else mret ()).

(** A task run alone against the store. *)
Fixpoint run_task {A} (t : Task A) (s : St) : St * (A + string) :=
  match t with
  | TDone r => (s, r)
  | TGet k c => let '(s1, r) := kv_get k s in run_task (c r) s1
  | TPut k v ttl c => let '(s1, r) := kv_put k v ttl s in run_task (c r) s1
  end.

(** One request of a task served by the store. *)
Definition t_step {A} (t : Task A) (s : St) : option (Task A * St) :=
  match t with
  | TDone _ => None
  | TGet k c => let '(s1, r) := kv_get k s in Some (c r, s1)
  | TPut k v ttl c => let '(s1, r) := kv_put k v ttl s in Some (c r, s1)
  end.

(** The task after [j] of its requests, run alone. *)
Fixpoint solo {A} (j : nat) (t : Task A) (s : St) : Task A * St :=
  match j with
  | O => (t, s)
  | S j' => match t_step t s with Some (t', s') => solo j' t' s' | None => (t, s) end
  end.

(** The event loop serves the pending requests of the running tasks in
    any order: a schedule names, step by step, the task whose request is
    served next (a finished task or an index out of range is a no-op). *)
Definition step_at (i : nat) (ts : list (Task unit)) (s : St) : list (Task unit) * St :=
  match ts !! i with
  | Some t => match t_step t s with Some (t', s') => (<[i := t']> ts, s') | None => (ts, s) end
  | None => (ts, s)
  end.

Fixpoint run_schedule (sched : list nat) (ts : list (Task unit)) (s : St) : list (Task unit) * St :=
  match sched with
  | [] => (ts, s)
  | i :: rest => let '(ts1, s1) := step_at i ts s in run_schedule rest ts1 s1
  end.

(** [MONITORED_SITES.map(site => checkSite(site, env))], each check with
    its own probe; [Promise.all] waits for all of them. *)
Definition scheduled_tasks (probe : string -> Probe) : list (Task unit) :=
  map (fun site => checkSite_task site (probe (site_name site))) MONITORED_SITES.

(** All the checks have finished. *)
Definition all_done (ts : list (Task unit)) : Prop :=
  Forall (fun t => exists r, t = TDone r) ts.

(** A task and a monadic computation that run alike on every store. *)
Definition runs_as {A} (t : Task A) (m : M A) : Prop := forall s, run_task t s = m s.

Lemma run_task_bind {A B} (f : A -> Task B) (t : Task A) s :
  run_task (t_bind f t) s =
  match run_task t s with (s', inl a) => run_task (f a) s' | (s', inr e) => (s', inr e) end.
Proof.
  revert s; induction t as [[a|e]|k c IH|k v ttl c IH]; intros s; simpl; try reflexivity;
    [destruct (kv_get k s) | destruct (kv_put k v ttl s)]; apply IH.
Qed.

Lemma run_task_catch {A} (t : Task A) (h : string -> Task A) s :
  run_task (t_catch t h) s =
  match run_task t s with (s', inr e) => run_task (h e) s' | r => r end.
Proof.
  revert s; induction t as [[a|e]|k c IH|k v ttl c IH]; intros s; simpl; try reflexivity;
    [destruct (kv_get k s) | destruct (kv_put k v ttl s)]; apply IH.
Qed.

Lemma runs_bind {A B} (t : Task A) (m : M A) (f : A -> Task B) (g : A -> M B) :
  runs_as t m -> (forall a, runs_as (f a) (g a)) -> runs_as (t ≫= f) (m ≫= g).
Proof.
  intros Ht Hf s. change (run_task (t_bind f t) s = M_bind _ _ g m s).
  rewrite run_task_bind, Ht. unfold M_bind. destruct (m s) as [s' [a|e]]; [apply Hf|reflexivity].
Qed.

Lemma runs_catch {A} (t : Task A) (m : M A) (h : string -> Task A) (g : string -> M A) :
  runs_as t m -> (forall e, runs_as (h e) (g e)) -> runs_as (t_catch t h) (try_catch m g).
Proof.
  intros Ht Hh s. rewrite run_task_catch, Ht. unfold try_catch.
  destruct (m s) as [s' [a|e]]; [reflexivity|apply Hh].
Qed.

Lemma runs_ret {A} (a : A) : runs_as (mret a) (mret a).
Proof. intros s. reflexivity. Qed.

Lemma runs_get k : runs_as (t_get k) (kv_get k).
Proof. intros s. simpl. destruct (kv_get k s); reflexivity. Qed.

Lemma runs_put k v ttl : runs_as (t_put k v ttl) (kv_put k v ttl).
Proof. intros s. simpl. destruct (kv_put k v ttl s); reflexivity. Qed.

Lemma runs_fetch p : runs_as (t_fetch p) (fetch_site p).
Proof. intros s. unfold t_fetch, fetch_site. destruct (fetch_outcome p); reflexivity. Qed.

Lemma checkSite_task_run (site : SiteCheck) (p : Probe) (s : St) :
  run_task (checkSite_task site p) s = checkSite site p s.
Proof.
  revert s. unfold checkSite_task, checkSite. cbv zeta.
  apply runs_catch.
  - apply runs_bind; [apply runs_fetch|]. intros [ok code].
    apply runs_bind; [apply runs_put|]. intros _.
    apply runs_bind; [apply runs_get|]. intros last.
    destruct (should_store _ _ _); [|apply runs_ret].
    apply runs_bind; [apply runs_put|]. intros _. apply runs_put.
  - intros msg.
    apply runs_bind; [apply runs_put|]. intros _.
    apply runs_bind; [apply runs_get|]. intros last.
    destruct (should_store _ _ _); [|apply runs_ret].
    apply runs_bind; [apply runs_put|]. intros _. apply runs_put.
Qed.

(** *** Tasks stay within their keys *)

Inductive within {A} (P : string -> Prop) : Task A -> Prop :=
  | within_done r : within P (TDone r)
  | within_get k c : P k -> (forall r, within P (c r)) -> within P (TGet k c)
  | within_put k v ttl c : P k -> (forall r, within P (c r)) -> within P (TPut k v ttl c).

Lemma within_bind {A B} (P : string -> Prop) (t : Task A) (f : A -> Task B) :
  within P t -> (forall a, within P (f a)) -> within P (t ≫= f).
Proof.
  intros Ht Hf. change (within P (t_bind f t)).
  induction Ht as [[a|e]|k c Hk Hc IH|k v ttl c Hk Hc IH]; simpl;
    [apply Hf | constructor | constructor; auto | constructor; auto].
Qed.

Lemma within_catch {A} (P : string -> Prop) (t : Task A) (h : string -> Task A) :
  within P t -> (forall e, within P (h e)) -> within P (t_catch t h).
Proof.
  intros Ht Hh.
  induction Ht as [[a|e]|k c Hk Hc IH|k v ttl c Hk Hc IH]; simpl;
    [constructor | apply Hh | constructor; auto | constructor; auto].
Qed.

Lemma checkSite_task_within (site : SiteCheck) (p : Probe) :
  within (owns (site_name site)) (checkSite_task site p).
Proof.
  assert (Hc : owns (site_name site) (current_key (site_name site))) by (left; reflexivity).
  assert (Hl : owns (site_name site) (last_history_key (site_name site))) by (right; left; reflexivity).
  pose proof (history_key_owned (site_name site) (now_timestamp p)) as Hh.
  unfold checkSite_task. cbv zeta.
  apply within_catch.
  - apply within_bind; [unfold t_fetch; destruct (fetch_outcome p); constructor|].
    intros [ok code].
    apply within_bind; [constructor; [exact Hc | constructor]|]. intros _.
    apply within_bind; [constructor; [exact Hl | constructor]|]. intros last.
    destruct (should_store _ _ _); [|constructor].
    apply within_bind; [constructor; [exact Hh | constructor]|]. intros _.
    constructor; [exact Hl | constructor].
  - intros msg.
    apply within_bind; [constructor; [exact Hc | constructor]|]. intros _.
    apply within_bind; [constructor; [exact Hl | constructor]|]. intros last.
    destruct (should_store _ _ _); [|constructor].
    apply within_bind; [constructor; [exact Hh | constructor]|]. intros _.
    constructor; [exact Hl | constructor].
Qed.

(** *** Running a task alone, request by request *)

Lemma t_step_broken {A} (t t' : Task A) s s' :
  t_step t s = Some (t', s') -> broken s' = broken s.
Proof.
  destruct t as [r|k c|k v ttl c]; simpl; [discriminate| |];
    [unfold kv_get | unfold kv_put]; destruct (broken s k);
    intros H; injection H as <- <-; reflexivity.
Qed.

Lemma solo_S {A} j (t : Task A) s :
  solo (S j) t s =
  match t_step (solo j t s).1 (solo j t s).2 with Some q => q | None => solo j t s end.
Proof.
  revert t s; induction j as [|j IH]; intros t s.
  - cbn [solo fst snd]. destruct (t_step t s) as [[t' s']|]; reflexivity.
  - change (solo (S (S j)) t s =
            match t_step (match t_step t s with Some (t', s') => solo j t' s' | None => (t, s) end).1
                         (match t_step t s with Some (t', s') => solo j t' s' | None => (t, s) end).2
            with Some q => q
            | None => match t_step t s with Some (t', s') => solo j t' s' | None => (t, s) end end).
    destruct (t_step t s) as [[t' s']|] eqn:E.
    + rewrite <- IH. cbn [solo]. rewrite E. reflexivity.
    + cbn [solo fst snd]. rewrite E. reflexivity.
Qed.

Lemma solo_broken {A} j (t : Task A) s : broken (solo j t s).2 = broken s.
Proof.
  revert t s; induction j as [|j IH]; intros t s; [reflexivity|]. simpl.
  destruct (t_step t s) as [[t' s']|] eqn:E; [|reflexivity].
  rewrite IH. exact (t_step_broken _ _ _ _ E).
Qed.

Lemma within_step {A} (P : string -> Prop) (t t' : Task A) s s' :
  within P t -> t_step t s = Some (t', s') -> within P t'.
Proof.
  intros Hw. destruct Hw as [r|k c Hk Hc|k v ttl c Hk Hc]; simpl; [discriminate| |];
    [destruct (kv_get k s) | destruct (kv_put k v ttl s)];
    intros H; injection H as <- <-; apply Hc.
Qed.

Lemma within_solo {A} (P : string -> Prop) j (t : Task A) s :
  within P t -> within P (solo j t s).1.
Proof.
  revert t s; induction j as [|j IH]; intros t s Hw; [exact Hw|]. simpl.
  destruct (t_step t s) as [[t' s']|] eqn:E; [|exact Hw].
  apply IH. exact (within_step _ _ _ _ _ Hw E).
Qed.

Lemma solo_done {A} j (t : Task A) s r :
  (solo j t s).1 = TDone r -> run_task t s = ((solo j t s).2, r).
Proof.
  revert t s; induction j as [|j IH]; intros t s.
  - simpl. intros ->. reflexivity.
  - destruct t as [r'|k c|k v ttl c]; simpl.
    + intros H; injection H as ->. reflexivity.
    + destruct (kv_get k s) as [s1 x]. apply IH.
    + destruct (kv_put k v ttl s) as [s1 x]. apply IH.
Qed.

(** A request is answered alike by two stores that agree on the keys the
    task may touch and fail alike; afterwards they still agree there, and
    only the request's key has changed. *)
Lemma step_agree {A} (P : string -> Prop) (t : Task A) g h t1 g1 :
  within P t -> t_step t g = Some (t1, g1) ->
  broken g = broken h -> (forall k, P k -> kv g !! k = kv h !! k) ->
  exists k h1, P k /\ t_step t h = Some (t1, h1) /\
    broken g1 = broken g /\ broken h1 = broken h /\
    (forall k', P k' -> kv g1 !! k' = kv h1 !! k') /\
    (forall k', k' <> k -> kv g1 !! k' = kv g !! k').
Proof.
  intros Hw Hs Hb Hkv. destruct Hw as [r|k c Hk Hc|k v ttl c Hk Hc]; [discriminate| |];
    simpl in Hs |- *; exists k.
  - unfold kv_get in Hs |- *.
    replace (broken h k) with (broken g k) by (rewrite Hb; reflexivity).
    rewrite <- (Hkv k Hk).
    destruct (broken g k); injection Hs as <- <-; eexists;
      (split; [exact Hk|]); (split; [reflexivity|]); cbn; repeat split; auto.
  - unfold kv_put in Hs |- *.
    replace (broken h k) with (broken g k) by (rewrite Hb; reflexivity).
    destruct (broken g k); injection Hs as <- <-; eexists;
      (split; [exact Hk|]); (split; [reflexivity|]); cbn; repeat split; auto.
    + intros k' Hk'. destruct (decide (k = k')) as [<-|Hne].
      * rewrite !lookup_insert_eq. reflexivity.
      * rewrite !lookup_insert_ne by exact Hne. auto.
    + intros k' Hne. apply lookup_insert_ne. congruence.
Qed.

(** *** Interleaved tasks over disjoint keys *)

Section Interleave.
Variable tasks : list (Task unit).
Variable s0 : St.
Variable own : nat -> string -> Prop.
Hypothesis tasks_within : forall i t, tasks !! i = Some t -> within (own i) t.
Hypothesis own_disjoint : forall i i' k, own i k -> own i' k -> i = i'.

(** Every task is where its solo run is after some of its requests, the
    store agrees with that solo run on the task's keys, and keys of no task
    keep their initial value. *)
Definition inv (ts : list (Task unit)) (g : St) : Prop :=
  broken g = broken s0 /\ length ts = length tasks /\
  (forall i t0, tasks !! i = Some t0 -> exists j, ts !! i = Some (solo j t0 s0).1 /\
     forall k, own i k -> kv g !! k = kv (solo j t0 s0).2 !! k) /\
  (forall k, (forall i, ~ own i k) -> kv g !! k = kv s0 !! k).

Lemma inv_init : inv tasks s0.
Proof.
  split; [reflexivity|]. split; [reflexivity|]. split; [|reflexivity].
  intros i t0 Ht. exists O. split; [exact Ht | reflexivity].
Qed.

Lemma inv_step i ts g : inv ts g -> inv (step_at i ts g).1 (step_at i ts g).2.
Proof.
  intros (Hb & Hlen & Hth & Hfree). unfold step_at.
  destruct (ts !! i) as [t|] eqn:Ei; [|split; auto].
  destruct (t_step t g) as [[t1 g1]|] eqn:Es; [|split; auto]. cbn [fst snd].
  assert (Hi : (i < length tasks)%nat) by (rewrite <- Hlen; apply lookup_lt_Some with t; exact Ei).
  destruct (lookup_lt_is_Some_2 tasks i Hi) as [t0 E0].
  destruct (Hth i t0 E0) as (j & Ej & Hagree).
  rewrite Ei in Ej. injection Ej as ->.
  destruct (step_agree (own i) _ g (solo j t0 s0).2 t1 g1
              (within_solo _ j _ _ (tasks_within i t0 E0)) Es
              (eq_trans Hb (eq_sym (solo_broken j t0 s0))) Hagree)
    as (k & h1 & Hk & Eh & Hbg & Hbh & Hagree1 & Hframe).
  split; [congruence|]. split; [rewrite length_insert; exact Hlen|]. split.
  - intros i' t0' E0'. destruct (decide (i = i')) as [<-|Hne].
    + rewrite E0 in E0'. injection E0' as <-. exists (S j).
      rewrite solo_S, Eh, list_lookup_insert_eq by (rewrite Hlen; exact Hi).
      split; [reflexivity | exact Hagree1].
    + destruct (Hth i' t0' E0') as (j' & Ej' & Hagree').
      exists j'. rewrite list_lookup_insert_ne by exact Hne. split; [exact Ej'|].
      intros k' Hk'. rewrite Hframe; [apply Hagree'; exact Hk'|].
      intros ->. apply Hne. exact (own_disjoint i i' k Hk Hk').
  - intros k' Hnone. rewrite Hframe; [apply Hfree; exact Hnone|].
    intros ->. exact (Hnone i Hk).
Qed.

Lemma inv_run sched ts g :
  inv ts g -> inv (run_schedule sched ts g).1 (run_schedule sched ts g).2.
Proof.
  revert ts g; induction sched as [|i rest IH]; intros ts g H; [exact H|]. simpl.
  pose proof (inv_step i ts g H) as H1. destruct (step_at i ts g) as [ts1 g1]. apply IH, H1.
Qed.

(** A task that has finished in an interleaving has the outcome of its
    solo run, and the store holds its solo run's values on its keys. *)
Lemma interleave_finished sched i t0 r :
  tasks !! i = Some t0 -> (run_schedule sched tasks s0).1 !! i = Some (TDone r) ->
  r = (run_task t0 s0).2 /\
  forall k, own i k -> kv (run_schedule sched tasks s0).2 !! k = kv (run_task t0 s0).1 !! k.
Proof.
  intros E0 Ed. destruct (inv_run sched tasks s0 inv_init) as (_ & _ & Hth & _).
  destruct (Hth i t0 E0) as (j & Ej & Hagree). rewrite Ed in Ej. injection Ej as Ej.
  rewrite (solo_done j t0 s0 r (eq_sym Ej)). split; [reflexivity | exact Hagree].
Qed.

Lemma interleave_free sched k :
  (forall i, ~ own i k) -> kv (run_schedule sched tasks s0).2 !! k = kv s0 !! k.
Proof.
  intros Hk. destruct (inv_run sched tasks s0 inv_init) as (_ & _ & _ & Hfree). auto.
Qed.

Lemma interleave_length sched : length (run_schedule sched tasks s0).1 = length tasks.
Proof. destruct (inv_run sched tasks s0 inv_init) as (_ & Hlen & _). exact Hlen. Qed.

End Interleave.

(** *** The four scheduled checks *)

(** Key [k] belongs to the [i]-th monitored site. *)
Definition sched_own (i : nat) (k : string) : Prop :=
  exists site, MONITORED_SITES !! i = Some site /\ owns (site_name site) k.

Lemma within_mono {A} (P Q : string -> Prop) (t : Task A) :
  (forall k, P k -> Q k) -> within P t -> within Q t.
Proof.
  intros HPQ Hw. induction Hw; constructor; auto.
Qed.

Lemma owns_dec (n k : string) : {owns n k} + {~ owns n k}.
Proof.
  destruct (string_dec k (current_key n)) as [E|N1]; [left; left; exact E|].
  destruct (string_dec k (last_history_key n)) as [E|N2]; [left; right; left; exact E|].
  destruct (String.prefix (history_prefix n) k) eqn:P.
  - left. right; right. apply prefix_app. exact P.
  - right. intros [E|[E|[x ->]]]; [exact (N1 E)|exact (N2 E)|].
    rewrite prefix_self_app in P. discriminate.
Qed.

Lemma monitored_owns_disjoint i i' k : sched_own i k -> sched_own i' k -> i = i'.
Proof.
  intros (site & Hs & O1) (site' & Hs' & O2).
  destruct i as [|[|[|[|i]]]]; try discriminate Hs; injection Hs as <-;
    destruct i' as [|[|[|[|i']]]]; try discriminate Hs'; injection Hs' as <-;
    try reflexivity;
    cbn [site_name] in O1, O2;
    unfold owns, current_key, last_history_key, history_prefix in O1, O2;
    destruct O1 as [-> | [-> | [s1 ->]]]; destruct O2 as [E | [E | [s2 E]]];
    discriminate E.
Qed.

Lemma scheduled_tasks_within (probe : string -> Probe) i t :
  scheduled_tasks probe !! i = Some t -> within (sched_own i) t.
Proof.
  unfold scheduled_tasks. rewrite list_lookup_fmap.
  destruct (MONITORED_SITES !! i) as [site|] eqn:E; [|discriminate].
  intros H; injection H as <-.
  apply (within_mono (owns (site_name site))); [|apply checkSite_task_within].
  intros k Hk. exists site. split; [exact E | exact Hk].
Qed.

Lemma scheduled_task_at (probe : string -> Probe) i site :
  MONITORED_SITES !! i = Some site ->
  scheduled_tasks probe !! i = Some (checkSite_task site (probe (site_name site))).
Proof. intros E. unfold scheduled_tasks. rewrite list_lookup_fmap, E. reflexivity. Qed.

Lemma scheduled_finished (probe : string -> Probe) (s : St) (sched : list nat) i site r :
  MONITORED_SITES !! i = Some site ->
  (run_schedule sched (scheduled_tasks probe) s).1 !! i = Some (TDone r) ->
  r = (checkSite site (probe (site_name site)) s).2 /\
  forall k, owns (site_name site) k ->
    kv (run_schedule sched (scheduled_tasks probe) s).2 !! k =
    kv (checkSite site (probe (site_name site)) s).1 !! k.
Proof.
  intros E Ed.
  destruct (interleave_finished (scheduled_tasks probe) s sched_own
              (scheduled_tasks_within probe) monitored_owns_disjoint
              sched i _ r (scheduled_task_at probe i site E) Ed) as [Hr Hk].
  rewrite checkSite_task_run in Hr, Hk. split; [exact Hr|].
  intros k Ok. apply Hk. exists site. split; [exact E | exact Ok].
Qed.

Lemma scheduled_free (probe : string -> Probe) (s : St) (sched : list nat) k :
  (forall site, site ∈ MONITORED_SITES -> ~ owns (site_name site) k) ->
  kv (run_schedule sched (scheduled_tasks probe) s).2 !! k = kv s !! k.
Proof.
  intros Hk. apply (interleave_free (scheduled_tasks probe) s sched_own
                      (scheduled_tasks_within probe) monitored_owns_disjoint).
  intros i (site & E & O). apply (Hk site); [|exact O].
  apply list_elem_of_lookup. exists i. exact E.
Qed.

(** Each scheduled check, in any interleaving of the four checks' store
    requests and whatever the store's faults: once it has finished, its
    outcome is the one it has run alone on the initial store, and its own
    keys hold the values that solo run leaves. *)
Theorem scheduled_check_isolated (probe : string -> Probe) (s : St) (sched : list nat)
    (i : nat) (site : SiteCheck) (r : unit + string) :
  MONITORED_SITES !! i = Some site ->
  (run_schedule sched (scheduled_tasks probe) s).1 !! i = Some (TDone r) ->
  r = (checkSite site (probe (site_name site)) s).2 /\
  forall k, owns (site_name site) k ->
    kv (run_schedule sched (scheduled_tasks probe) s).2 !! k =
    kv (checkSite site (probe (site_name site)) s).1 !! k.
Proof. apply scheduled_finished. Qed.

(** The scheduled checks never touch a key that belongs to no monitored
    site, in any interleaving and whatever the store's faults. *)
Theorem scheduled_foreign_keys_untouched (probe : string -> Probe) (s : St) (sched : list nat)
    (k : string) :
  (forall site, site ∈ MONITORED_SITES -> ~ owns (site_name site) k) ->
  kv (run_schedule sched (scheduled_tasks probe) s).2 !! k = kv s !! k.
Proof. apply scheduled_free. Qed.

(** Once all four checks have finished, the store does not depend on the
    order in which their requests were served. *)
Theorem scheduled_order_independent (probe : string -> Probe) (s : St) (sched1 sched2 : list nat) :
  all_done (run_schedule sched1 (scheduled_tasks probe) s).1 ->
  all_done (run_schedule sched2 (scheduled_tasks probe) s).1 ->
  kv (run_schedule sched1 (scheduled_tasks probe) s).2 =
  kv (run_schedule sched2 (scheduled_tasks probe) s).2.
Proof.
  intros D1 D2. apply map_eq. intros k.
  assert (Hfin : forall sched, all_done (run_schedule sched (scheduled_tasks probe) s).1 ->
            forall i site, MONITORED_SITES !! i = Some site -> owns (site_name site) k ->
            kv (run_schedule sched (scheduled_tasks probe) s).2 !! k =
            kv (checkSite site (probe (site_name site)) s).1 !! k).
  { intros sched D i site E O.
    assert (Hi : (i < length (run_schedule sched (scheduled_tasks probe) s).1)%nat).
    { rewrite (interleave_length _ s sched_own (scheduled_tasks_within probe)
                 monitored_owns_disjoint sched).
      unfold scheduled_tasks. rewrite length_map. apply lookup_lt_Some with site. exact E. }
    destruct (lookup_lt_is_Some_2 _ i Hi) as [t Et].
    destruct (proj1 (Forall_lookup _ _) D i t Et) as [r ->].
    apply (scheduled_finished probe s sched i site r E Et). exact O. }
  assert (Hsite : forall i site, MONITORED_SITES !! i = Some site -> owns (site_name site) k ->
            kv (run_schedule sched1 (scheduled_tasks probe) s).2 !! k =
            kv (run_schedule sched2 (scheduled_tasks probe) s).2 !! k).
  { intros i site E O. rewrite (Hfin sched1 D1 i site E O), (Hfin sched2 D2 i site E O).
    reflexivity. }
  destruct (owns_dec "main" k) as [O|N0]; [exact (Hsite 0%nat _ eq_refl O)|].
  destruct (owns_dec "dashboard" k) as [O|N1]; [exact (Hsite 1%nat _ eq_refl O)|].
  destruct (owns_dec "api" k) as [O|N2]; [exact (Hsite 2%nat _ eq_refl O)|].
  destruct (owns_dec "cdn" k) as [O|N3]; [exact (Hsite 3%nat _ eq_refl O)|].
  assert (Hk : forall site, site ∈ MONITORED_SITES -> ~ owns (site_name site) k).
  { intros site Hs. apply list_elem_of_In in Hs. simpl in Hs.
    destruct Hs as [<-|[<-|[<-|[<-|[]]]]]; assumption. }
  rewrite !scheduled_free by exact Hk. reflexivity.
Qed.

(** ** Concrete runs of the properties above *)

(** An empty store whose operations on key [bad] fail. *)
Definition faulty_store (bad : string) : St :=
  {| kv := ∅; log := []; broken := fun k => String.eqb k bad |}.

(** The store after one check of [main] at time 1000. *)
Definition checked_store : St := (checkSite (site_named "main") (up_probe 1000) empty_store).1.

(** That store, with reads of its history entry failing. *)
Definition broken_entry_store : St :=
  {| kv := kv checked_store; log := [];
     broken := fun k => String.eqb k (history_key "main" 1000) |}.

Definition dashboard_site : SiteCheck :=
  {| site_name := "dashboard"; url := "https://dashboard.teyvatarchive.online"; timeout := 10000 |}.

(** The four checks served in turn, [rounds] times. *)
Definition round_robin (rounds : nat) : list nat := concat (repeat [0; 1; 2; 3]%nat rounds).

(** Each check served to its end before the next one starts. *)
Definition one_by_one : list nat := concat (map (fun i => repeat i 8) [0; 1; 2; 3]%nat).

Lemma getStatus_propagates_get_failure_witness :
  ("api" ∈ status_sites /\ broken (faulty_store (current_key "api")) (current_key "api") = true) /\
  exists e, (getStatus (faulty_store (current_key "api"))).2 = inr e.
Proof.
  split; [split; [apply list_elem_of_In; simpl; tauto | reflexivity] |].
  apply (getStatus_propagates_get_failure (faulty_store (current_key "api")) "api");
    [apply list_elem_of_In; simpl; tauto | reflexivity].
Defined.

Lemma getHistory_propagates_failures_witness :
  ("main" <> "" /\
   (exists k, k ∈ take KV_LIST_LIMIT (KeySort.sort (keys_under broken_entry_store (history_prefix "main"))) /\
              broken broken_entry_store k = true)) /\
  exists e, (getHistory (Some "main") broken_entry_store).2 = inr e.
Proof.
  assert (Hk : exists k, k ∈ take KV_LIST_LIMIT
                 (KeySort.sort (keys_under broken_entry_store (history_prefix "main"))) /\
               broken broken_entry_store k = true).
  { exists (history_key "main" 1000). split; [| reflexivity].
    apply list_elem_of_In. vm_compute. left. reflexivity. }
  split; [split; [discriminate | exact Hk] |].
  apply (getHistory_propagates_failures "main" broken_entry_store); [discriminate | right; exact Hk].
Defined.

Lemma checkSite_marker_read_failure_witness :
  (fetch_outcome (up_probe 1000) = Resolved true 200 /\
   broken (faulty_store (last_history_key "main")) (current_key "main") = false /\
   broken (faulty_store (last_history_key "main")) (last_history_key "main") = true) /\
  checkSite (site_named "main") (up_probe 1000) (faulty_store (last_history_key "main")) =
    ({| kv := <[current_key "main" := VRec (caught_record (up_probe 1000) "KV GET failed")]> ∅;
        log := [OpPut (current_key "main") (VRec (probe_record (up_probe 1000))) None;
                OpGet (last_history_key "main");
                OpPut (current_key "main") (VRec (caught_record (up_probe 1000) "KV GET failed")) None;
                OpGet (last_history_key "main")];
        broken := broken (faulty_store (last_history_key "main")) |}, inr "KV GET failed").
Proof.
  split; [split; [reflexivity | split; reflexivity] |].
  exact (checkSite_marker_read_failure (site_named "main") (up_probe 1000)
           (faulty_store (last_history_key "main")) true 200 eq_refl eq_refl eq_refl).
Defined.

Lemma checkSite_put_ttls_witness :
  OpPut (history_key "main" 1000) (VRec (up_record 1000)) (Some HISTORY_TTL)
    ∈ ops_since empty_store (checkSite (site_named "main") (up_probe 1000) empty_store).1 /\
  ((history_key "main" 1000 = history_key "main" 1000 /\ Some HISTORY_TTL = Some HISTORY_TTL) \/
   ((history_key "main" 1000 = current_key "main" \/ history_key "main" 1000 = last_history_key "main") /\
    Some HISTORY_TTL = None)).
Proof.
  assert (Hin : OpPut (history_key "main" 1000) (VRec (up_record 1000)) (Some HISTORY_TTL)
                  ∈ ops_since empty_store (checkSite (site_named "main") (up_probe 1000) empty_store).1).
  { apply list_elem_of_In. vm_compute. right; right; left. reflexivity. }
  split; [exact Hin |].
  exact (checkSite_put_ttls (site_named "main") (up_probe 1000) empty_store _ _ _ Hin).
Defined.

Lemma checkSite_marker_consistent_witness :
  (reliable checked_store /\ marker_consistent checked_store "main") /\
  marker_consistent (checkSite (site_named "main") (up_probe 9000000) checked_store).1 "main".
Proof.
  assert (Hr : reliable checked_store) by (intros k; reflexivity).
  assert (Hc : marker_consistent checked_store "main").
  { intros m Hm. vm_compute in Hm. injection Hm as Hm. subst m. vm_compute. reflexivity. }
  split; [split; [exact Hr | exact Hc] |].
  exact (checkSite_marker_consistent (site_named "main") (up_probe 9000000) checked_store Hr Hc).
Defined.

Lemma getStatus_after_checkSite_witness :
  (reliable empty_store /\ "main" ∈ status_sites) /\
  exists m,
    (getStatus (checkSite (site_named "main") (up_probe 1000) empty_store).1).2 =
      inl {| resp_status := 200; resp_body := BStatuses m |} /\
    m !! "main" = Some (Some (probe_record (up_probe 1000))).
Proof.
  assert (Hr : reliable empty_store) by (intros k; reflexivity).
  assert (Hin : "main" ∈ status_sites) by (apply list_elem_of_In; simpl; tauto).
  split; [split; [exact Hr | exact Hin] |].
  exact (getStatus_after_checkSite (site_named "main") (up_probe 1000) empty_store Hr Hin).
Defined.

Lemma getHistory_after_sampled_check_witness :
  (reliable checked_store /\ "main" <> "" /\
   should_store (kv checked_store !! last_history_key "main") (status (probe_record (up_probe 9000000)))
     (now_timestamp (up_probe 9000000)) = true /\
   (forall e, e ∈ history_entries checked_store "main" -> timestamp e < now_timestamp (up_probe 9000000)) /\
   (length (keys_under (checkSite (site_named "main") (up_probe 9000000) checked_store).1
                       (history_prefix "main")) <= KV_LIST_LIMIT)%nat) /\
  exists rest,
    (getHistory (Some "main") (checkSite (site_named "main") (up_probe 9000000) checked_store).1).2 =
      inl {| resp_status := 200; resp_body := BHistory (probe_record (up_probe 9000000) :: rest) |}.
Proof.
  assert (Hr : reliable checked_store) by (intros k; reflexivity).
  assert (Hn : "main" <> "") by discriminate.
  assert (Hs : should_store (kv checked_store !! last_history_key "main")
                 (status (probe_record (up_probe 9000000))) (now_timestamp (up_probe 9000000)) = true)
    by (vm_compute; reflexivity).
  assert (Ho : forall e, e ∈ history_entries checked_store "main" ->
                 timestamp e < now_timestamp (up_probe 9000000)).
  { intros e He. assert (E : history_entries checked_store "main" = [up_record 1000])
      by (vm_compute; reflexivity).
    rewrite E in He. apply list_elem_of_singleton in He. subst e. vm_compute. reflexivity. }
  assert (Hl : (length (keys_under (checkSite (site_named "main") (up_probe 9000000) checked_store).1
                          (history_prefix "main")) <= KV_LIST_LIMIT)%nat)
    by (apply Nat.leb_le; vm_compute; reflexivity).
  split; [repeat split; assumption |].
  exact (getHistory_after_sampled_check (site_named "main") (up_probe 9000000) checked_store
           Hr Hn Hs Ho Hl).
Defined.

Lemma scheduled_check_isolated_witness :
  (MONITORED_SITES !! 1%nat = Some dashboard_site /\
   (run_schedule (round_robin 8) (scheduled_tasks (fun _ => up_probe 1000))
      (faulty_store (current_key "api"))).1 !! 1%nat = Some (TDone (inl ()))) /\
  (inl () = (checkSite dashboard_site (up_probe 1000) (faulty_store (current_key "api"))).2 /\
   forall k, owns "dashboard" k ->
     kv (run_schedule (round_robin 8) (scheduled_tasks (fun _ => up_probe 1000))
           (faulty_store (current_key "api"))).2 !! k =
     kv (checkSite dashboard_site (up_probe 1000) (faulty_store (current_key "api"))).1 !! k).
Proof.
  assert (E : MONITORED_SITES !! 1%nat = Some dashboard_site) by reflexivity.
  assert (D : (run_schedule (round_robin 8) (scheduled_tasks (fun _ => up_probe 1000))
                 (faulty_store (current_key "api"))).1 !! 1%nat = Some (TDone (inl ())))
    by (vm_compute; reflexivity).
  split; [split; [exact E | exact D] |].
  exact (scheduled_check_isolated (fun _ => up_probe 1000) (faulty_store (current_key "api"))
           (round_robin 8) 1%nat dashboard_site (inl ()) E D).
Defined.

Lemma scheduled_foreign_keys_untouched_witness :
  (forall site, site ∈ MONITORED_SITES -> ~ owns (site_name site) "config") /\
  kv (run_schedule (round_robin 8) (scheduled_tasks (fun _ => up_probe 1000))
        {| kv := <["config" := VBad "on"]> ∅; log := []; broken := fun _ => false |}).2 !! "config" =
  Some (VBad "on").
Proof.
  assert (Hk : forall site, site ∈ MONITORED_SITES -> ~ owns (site_name site) "config").
  { intros site Hs. apply list_elem_of_In in Hs. simpl in Hs.
    destruct Hs as [<-|[<-|[<-|[<-|[]]]]]; cbn [site_name];
      unfold owns, current_key, last_history_key, history_prefix;
      intros [E|[E|[x E]]]; discriminate E. }
  split; [exact Hk |].
  exact (scheduled_foreign_keys_untouched (fun _ => up_probe 1000)
           {| kv := <["config" := VBad "on"]> ∅; log := []; broken := fun _ => false |}
           (round_robin 8) "config" Hk).
Defined.

Lemma scheduled_order_independent_witness :
  (all_done (run_schedule (round_robin 8) (scheduled_tasks (fun _ => up_probe 1000))
               (faulty_store (current_key "api"))).1 /\
   all_done (run_schedule one_by_one (scheduled_tasks (fun _ => up_probe 1000))
               (faulty_store (current_key "api"))).1) /\
  kv (run_schedule (round_robin 8) (scheduled_tasks (fun _ => up_probe 1000))
        (faulty_store (current_key "api"))).2 =
  kv (run_schedule one_by_one (scheduled_tasks (fun _ => up_probe 1000))
        (faulty_store (current_key "api"))).2.
Proof.
  assert (D1 : all_done (run_schedule (round_robin 8) (scheduled_tasks (fun _ => up_probe 1000))
                           (faulty_store (current_key "api"))).1)
    by (vm_compute; repeat econstructor).
  assert (D2 : all_done (run_schedule one_by_one (scheduled_tasks (fun _ => up_probe 1000))
                           (faulty_store (current_key "api"))).1)
    by (vm_compute; repeat econstructor).
  split; [split; [exact D1 | exact D2] |].
  exact (scheduled_order_independent (fun _ => up_probe 1000) (faulty_store (current_key "api"))
           (round_robin 8) one_by_one D1 D2).
Defined.
